(** * django-variable: the [variable] block tag (variable.py)

    A shallow embedding of [variable.py] and the properties of its
    attribute tokenizer, of [LazyVariable] and of [TemplateVariableNode].

    Python values are modelled as follows.
    - [str] is [string]; a character is an 8-bit [ascii].  The pattern
      [TOKEN_REGEX] is compiled without flags: on Python 2 its [\w] is the
      class [[a-zA-Z0-9_]], which is how [TOKEN_REGEX] reads it; on Python 3
      its [\w] is aware of Unicode, which is how [TOKEN_REGEX_unicode]
      reads it.
    - a raised exception is the [Raise] outcome of a [Result].
    - the mutable objects ([Context] instances, [LazyVariable] instances)
      live in a store, the [World], which every rendering step threads. *)

From Stdlib Require Import Ascii String List Arith Bool Lia.
From stdpp Require Import gmap strings list.

Local Open Scope string_scope.
Local Open Scope list_scope.

(** ** Exceptions and results *)

Inductive exn : Type :=
| ValueError
| IndexError
| AttributeError
| ReferenceError
| ContextPopException
| RuntimeError
| TemplateSyntaxError (msg : string).

Inductive Result (A : Type) : Type :=
| Ok (a : A)
| Raise (e : exn).
Arguments Ok {A} a.
Arguments Raise {A} e.

Definition rbind {A B} (r : Result A) (f : A -> Result B) : Result B :=
  match r with
  | Ok a => f a
  | Raise e => Raise e
  end.

(** [[f(x) for x in xs]], stopping at the first exception. *)
Fixpoint for_each {A B} (xs : list A) (f : A -> Result B) : Result (list B) :=
  match xs with
  | [] => Ok []
  | x :: xs' =>
      rbind (f x) (fun y => rbind (for_each xs' f) (fun ys => Ok (y :: ys)))
  end.

(** ** Characters and [str] methods *)

Definition text := list ascii.

Definition dquote : ascii := "034"%char.
Definition backslash : ascii := "092"%char.
Definition newline : ascii := "010"%char.
Definition space : ascii := " "%char.

Definition in_range (lo hi c : ascii) : bool :=
  (nat_of_ascii lo <=? nat_of_ascii c)%nat && (nat_of_ascii c <=? nat_of_ascii hi)%nat.

(** [\w] without [re.UNICODE]: [[a-zA-Z0-9_]]. *)
Definition is_word (c : ascii) : bool :=
  in_range "a" "z" c || in_range "A" "Z" c || in_range "0" "9" c
  || Ascii.eqb c "_".

(** [.] without [re.DOTALL]: anything but a newline. *)
Definition is_dot (c : ascii) : bool := negb (Ascii.eqb c newline).

Fixpoint lstrip (chars : ascii -> bool) (s : text) : text :=
  match s with
  | c :: s' => if chars c then lstrip chars s' else s
  | [] => []
  end.

Definition rstrip (chars : ascii -> bool) (s : text) : text :=
  rev (lstrip chars (rev s)).

(** [s.strip(chars)]: every leading and every trailing character that is in
    [chars] is removed. *)
Definition strip (chars : string) (s : string) : string :=
  let member c := existsb (Ascii.eqb c) (list_ascii_of_string chars) in
  string_of_list_ascii (rstrip member (lstrip member (list_ascii_of_string s))).

(** Truth value of a [str]: non-empty. *)
Definition truthy (s : string) : bool :=
  match s with
  | EmptyString => false
  | String _ _ => true
  end.

(** ** The regular expressions that [TOKEN_REGEX] uses

    Repetition is applied to character classes only, which is all the
    pattern needs ([\w+] and [.*?]). *)

Inductive regex : Type :=
| Chr (c : ascii)                     (* a literal character *)
| Seq (r1 r2 : regex)                 (* r1 r2 *)
| Alt (r1 r2 : regex)                 (* r1|r2, r1 tried first *)
| Plus (cls : ascii -> bool)          (* cls+, greedy *)
| StarLazy (cls : ascii -> bool)      (* cls*?, non-greedy *)
| Group (n : nat) (r : regex)         (* (r), the n-th capturing group *)
| NotBehind (w : text)                (* (?<!w) *)
| Ahead (r : regex)                   (* (?=r) *)
| Dollar.                             (* $ *)

(** A position in the subject: the characters before it (nearest first),
    the characters from it on, and the groups captured so far. *)
Record cursor : Type := Cursor {
  behind : text;
  ahead : text;
  marks : nat -> option text
}.

Definition set_mark (n : nat) (t : text) (g : nat -> option text) : nat -> option text :=
  fun k => if (k =? n)%nat then Some t else g k.

(** The text between two positions [s] and [s'] of one subject, [s] first. *)
Definition captured (s s' : cursor) : text :=
  firstn (length (ahead s) - length (ahead s')) (ahead s).

(** [cls*] from a position, longest first, then backing off one character
    at a time. *)
Fixpoint star_greedy (cls : ascii -> bool) (b a : text) (g : nat -> option text)
    (k : cursor -> option cursor) : option cursor :=
  match a with
  | c :: a' =>
      if cls c then
        match star_greedy cls (c :: b) a' g k with
        | Some r => Some r
        | None => k (Cursor b a g)
        end
      else k (Cursor b a g)
  | [] => k (Cursor b a g)
  end.

(** [cls*?] from a position, shortest first, then one character more. *)
Fixpoint star_lazy (cls : ascii -> bool) (b a : text) (g : nat -> option text)
    (k : cursor -> option cursor) : option cursor :=
  match k (Cursor b a g) with
  | Some r => Some r
  | None =>
      match a with
      | c :: a' => if cls c then star_lazy cls (c :: b) a' g k else None
      | [] => None
      end
  end.

Fixpoint is_prefix (p s : text) : bool :=
  match p, s with
  | [], _ => true
  | c :: p', d :: s' => Ascii.eqb c d && is_prefix p' s'
  | _ :: _, [] => false
  end.

(** The backtracking matcher of [re], in continuation-passing style:
    [exec r s k] matches [r] at [s] and hands the position reached to the
    rest of the pattern [k]; when [k] fails the next way of matching [r] is
    tried. *)
Fixpoint exec (r : regex) (s : cursor) (k : cursor -> option cursor)
    {struct r} : option cursor :=
  match r with
  | Chr c =>
      match ahead s with
      | d :: a' =>
          if Ascii.eqb c d then k (Cursor (d :: behind s) a' (marks s)) else None
      | [] => None
      end
  | Seq r1 r2 => exec r1 s (fun s1 => exec r2 s1 k)
  | Alt r1 r2 =>
      match exec r1 s k with
      | Some x => Some x
      | None => exec r2 s k
      end
  | Plus cls =>
      match ahead s with
      | c :: a' =>
          if cls c then star_greedy cls (c :: behind s) a' (marks s) k else None
      | [] => None
      end
  | StarLazy cls => star_lazy cls (behind s) (ahead s) (marks s) k
  | Group n r1 =>
      exec r1 s (fun s1 =>
        k (Cursor (behind s1) (ahead s1) (set_mark n (captured s s1) (marks s1))))
  | NotBehind w =>
      if is_prefix (rev w) (behind s) then None else k s
  | Ahead r1 =>
      match exec r1 s Some with
      | Some s1 => k (Cursor (behind s) (ahead s) (marks s1))
      | None => None
      end
  | Dollar =>
      match ahead s with
      | [] => k s
      | [c] => if Ascii.eqb c newline then k s else None
      | _ => None
      end
  end.

Fixpoint ngroups (r : regex) : nat :=
  match r with
  | Seq r1 r2 | Alt r1 r2 => ngroups r1 + ngroups r2
  | Group _ r1 => S (ngroups r1)
  | Ahead r1 => ngroups r1
  | _ => 0
  end.

(** What [findall] reports for one match of a pattern with several groups:
    the tuple of its groups, [''] for a group that took no part. *)
Definition groups_of (n : nat) (s : cursor) : list string :=
  map (fun i => string_of_list_ascii (default [] (marks s i))) (seq 1 n).

(** [scan r n skip b a]: the matches of [r] in [rev b ++ a] from the
    position between [b] and [a] on, left to right and non-overlapping;
    [skip] counts the characters still covered by the previous match. *)
Fixpoint scan (r : regex) (n : nat) (skip : nat) (b a : text) : list (list string) :=
  let here :=
    match skip with
    | O => exec r (Cursor b a (fun _ => None)) Some
    | S _ => None
    end in
  match here with
  | Some s =>
      groups_of n s ::
      match a with
      | c :: a' => scan r n (length a - length (ahead s) - 1) (c :: b) a'
      | [] => []
      end
  | None =>
      match a with
      | c :: a' => scan r n (skip - 1) (c :: b) a'
      | [] => []
      end
  end.

(** [pattern.findall(string)] for a pattern with more than one group. *)
Definition findall (r : regex) (s : string) : list (list string) :=
  scan r (ngroups r) 0 [] (list_ascii_of_string s).

(** ** The tokenizer *)

(** The pattern, writing Q for the double-quote character:
    [(\w+)=(?:(Q.*?Q)(?<!\Q)|(\w+))(?:(?= )|$)] *)
Definition TOKEN_REGEX : regex :=
  Seq (Group 1 (Plus is_word))
 (Seq (Chr "=")
 (Seq (Alt (Seq (Group 2 (Seq (Chr dquote) (Seq (StarLazy is_dot) (Chr dquote))))
                (NotBehind [backslash; dquote]))
           (Group 3 (Plus is_word)))
      (Alt (Ahead (Chr space)) Dollar))).

(** [t[i]] on a tuple. *)
Definition item (t : list string) (i : nat) : Result string :=
  match nth_error t i with
  | Some x => Ok x
  | None => Raise IndexError
  end.

Definition quote_chars : string := String dquote EmptyString.

Definition get_token_groups (text : string) : Result (list (string * string)) :=
  for_each (findall TOKEN_REGEX text) (fun match_ =>
    rbind (item match_ 0) (fun name =>
    rbind (item match_ 1) (fun quoted =>
    rbind (if truthy quoted then Ok (strip quote_chars quoted) else item match_ 2)
          (fun value => Ok (name, value))))).

(** *** The pattern on a Python 3 [str]

    [is_word] is [\w] as Python 2 has it for a pattern without flags.  On
    Python 3 the pattern is a [str] pattern and its [\w] is aware of Unicode:
    it matches every character that is alphanumeric in the Unicode sense
    and the underscore.  The 8-bit characters of the model are then the
    code points below 256; those beyond ASCII that [\w] matches are the
    letters and digits of Latin-1. *)
Definition is_word_unicode (c : ascii) : bool :=
  let n := nat_of_ascii c in
  is_word c
  || existsb (Nat.eqb n) [170; 178; 179; 181; 185; 186; 188; 189; 190]
  || (192 <=? n)%nat && (n <=? 214)%nat
  || (216 <=? n)%nat && (n <=? 246)%nat
  || (248 <=? n)%nat.

(** The pattern of [TOKEN_REGEX] for a reading [word] of [\w]. *)
Definition token_regex (word : ascii -> bool) : regex :=
  Seq (Group 1 (Plus word))
 (Seq (Chr "=")
 (Seq (Alt (Seq (Group 2 (Seq (Chr dquote) (Seq (StarLazy is_dot) (Chr dquote))))
                (NotBehind [backslash; dquote]))
           (Group 3 (Plus word)))
      (Alt (Ahead (Chr space)) Dollar))).

Definition TOKEN_REGEX_unicode : regex := token_regex is_word_unicode.

(** [get_token_groups] on Python 3. *)
Definition get_token_groups_unicode (text : string) : Result (list (string * string)) :=
  for_each (findall TOKEN_REGEX_unicode text) (fun match_ =>
    rbind (item match_ 0) (fun name =>
    rbind (item match_ 1) (fun quoted =>
    rbind (if truthy quoted then Ok (strip quote_chars quoted) else item match_ 2)
          (fun value => Ok (name, value))))).

(** [s.index(sub)]: the lowest index at which [sub] occurs, [ValueError]
    when it does not occur. *)
Fixpoint index_text (s sub : text) : Result nat :=
  if is_prefix sub s then Ok 0
  else match s with
       | [] => Raise ValueError
       | _ :: s' => rbind (index_text s' sub) (fun i => Ok (S i))
       end.

Definition str_index (s sub : string) : Result nat :=
  index_text (list_ascii_of_string s) (list_ascii_of_string sub).

(** [s[i:]] *)
Definition slice_from (s : string) (i : nat) : string :=
  string_of_list_ascii (skipn i (list_ascii_of_string s)).

(** [s.replace(old, new)] for a non-empty [old]: the occurrences are found
    left to right and do not overlap; [skip] counts the characters of the
    occurrence just replaced that are still to be passed over. *)
Fixpoint replace_text (old new : text) (skip : nat) (s : text) : text :=
  match s with
  | [] => []
  | c :: s' =>
      match skip with
      | S k => replace_text old new k s'
      | O =>
          if is_prefix old s
          then new ++ replace_text old new (length old - 1) s'
          else c :: replace_text old new 0 s'
      end
  end.

Definition replace (old new s : string) : string :=
  string_of_list_ascii
    (replace_text (list_ascii_of_string old) (list_ascii_of_string new) 0
       (list_ascii_of_string s)).

(** [u''.join(parts)] *)
Definition join (parts : list string) : string := String.concat "" parts.

(** ** The objects of a render

    A [Context] and a [LazyVariable] are mutable and shared by reference:
    the context a [LazyVariable] captures is the very object the block
    pushes its frame on, and the frame holds the [LazyVariable] objects
    themselves.  References are indices into the stores of the [World]. *)

Abbreviation ctx_ref := nat (only parsing).
Abbreviation lazy_ref := nat (only parsing).

(** What a context variable can be bound to. *)
Inductive Value : Type :=
| VStr (s : string)
| VLazy (l : lazy_ref).

(** [django.utils.safestring.mark_safe]: the string, marked as safe for
    output. *)
Inductive SafeData : Type :=
| mark_safe (s : string).

Definition unsafe (v : SafeData) : string :=
  match v with mark_safe s => s end.

(** The types of the host engine that the module only passes around: the
    tag registry [parser.tags], the lexer's tokens and the parser. *)
Class HostTypes : Type := {
  Tags : Type;
  Token : Type;
  Parser : Type
}.

Section Embedding.
Context {HT : HostTypes}.

Record LazyVariable : Type := {
  _tag_library : Tags;
  _logic : string;
  _context : ctx_ref;
  _cached_value : option string   (* [None]: the attribute is not set *)
}.

Record World : Type := {
  contexts : gmap ctx_ref (list (gmap string Value));   (* [Context.dicts], top frame first *)
  lazies : list LazyVariable
}.

(** A computation that reads and writes the objects and returns or raises. *)
Definition M (A : Type) : Type := World -> Result A * World.

Definition ret {A} (a : A) : M A := fun w => (Ok a, w).

Definition raise {A} (e : exn) : M A := fun w => (Raise e, w).

Definition bind {A B} (m : M A) (f : A -> M B) : M B :=
  fun w =>
    match m w with
    | (Ok a, w1) => f a w1
    | (Raise e, w1) => (Raise e, w1)
    end.

Definition lift {A} (r : Result A) : M A := fun w => (r, w).

(** [try: m except E: handler], [catches] telling the exceptions in [E]. *)
Definition try_except {A} (m : M A) (catches : exn -> bool) (handler : M A) : M A :=
  fun w =>
    match m w with
    | (Ok a, w1) => (Ok a, w1)
    | (Raise e, w1) => if catches e then handler w1 else (Raise e, w1)
    end.

(** [try: m finally: fin]: [fin] runs however [m] ends; an exception of
    [fin] replaces the outcome of [m]. *)
Definition try_finally {A} (m : M A) (fin : M unit) : M A :=
  fun w =>
    match m w with
    | (r, w1) =>
        match fin w1 with
        | (Ok _, w2) => (r, w2)
        | (Raise e, w2) => (Raise e, w2)
        end
    end.

(** Anything with a [render(context)] method. *)
Definition Node : Type := ctx_ref -> M string.

(** [u''.join(node.render(context) for node in nodelist)]: the nodes are
    rendered in order, the first exception ends the rendering. *)
Fixpoint render_each (nodelist : list Node) (context : ctx_ref) : M (list string) :=
  match nodelist with
  | [] => ret []
  | node :: rest =>
      bind (node context) (fun out =>
      bind (render_each rest context) (fun outs => ret (out :: outs)))
  end.

Definition render_nodelist (nodelist : list Node) (context : ctx_ref) : M string :=
  bind (render_each nodelist context) (fun outs => ret (join outs)).

(** *** The context

    Modelled from the spec: the [Context] of the host engine (section 3: a
    sequence of mapping frames; [push()] adds a new empty frame, [pop()]
    removes the top frame, lookups search frames top-down).  Django's
    [pop] refuses to remove the last frame that remains and raises
    [ContextPopException]; that guard is kept. *)

Definition set_frames (context : ctx_ref) (frames : list (gmap string Value))
    (w : World) : World :=
  {| contexts := <[context := frames]> (contexts w); lazies := lazies w |}.

(** [context.push()].  The dict it returns is the new top frame, which is
    what [update_top] writes to. *)
Definition push (context : ctx_ref) : M ctx_ref :=
  fun w =>
    match contexts w !! context with
    | Some frames => (Ok context, set_frames context (∅ :: frames) w)
    | None => (Raise ReferenceError, w)
    end.

(** [context.pop()] *)
Definition pop (context : ctx_ref) : M unit :=
  fun w =>
    match contexts w !! context with
    | Some (_ :: (_ :: _) as rest) => (Ok tt, set_frames context rest w)
    | Some [_] => (Raise ContextPopException, w)
    | Some [] => (Raise IndexError, w)
    | None => (Raise ReferenceError, w)
    end.

(** [d.update(other)] on the top frame [d]: the entries of [other] are
    written over those of [d]. *)
Definition update_top (context : ctx_ref) (other : gmap string Value) : M unit :=
  fun w =>
    match contexts w !! context with
    | Some (top :: rest) => (Ok tt, set_frames context ((other ∪ top) :: rest) w)
    | Some [] => (Raise IndexError, w)
    | None => (Raise ReferenceError, w)
    end.

(** The top-down search of a name in the frames. *)
Fixpoint lookup_frames (name : string) (frames : list (gmap string Value)) : option Value :=
  match frames with
  | [] => None
  | frame :: below =>
      match frame !! name with
      | Some v => Some v
      | None => lookup_frames name below
      end
  end.

(** What [name] resolves to in [context]. *)
Definition resolve_name (context : ctx_ref) (name : string) (w : World) : option Value :=
  match contexts w !! context with
  | Some frames => lookup_frames name frames
  | None => None
  end.

(** The number of frames of [context]. *)
Definition depth (context : ctx_ref) (w : World) : option nat :=
  length <$> contexts w !! context.

(** *** The services of the host engine

    [tokenize debug s] is [lexer_class(s, StringOrigin(s)).tokenize()] and
    [Parser_init debug tokens] is [parser_class(tokens)], for the debug
    classes when [debug] holds and for [Lexer] and [Parser] otherwise;
    [parse parser until] is [parser.parse(until)] with the state of the
    parser after it. *)
Class Host : Type := {
  TEMPLATE_DEBUG : bool;
  tokenize : bool -> string -> Result (list Token);
  Parser_init : bool -> list Token -> Parser;
  set_tags : Parser -> Tags -> Parser;
  get_tags : Parser -> Tags;
  parse : Parser -> list string -> Result (list Node * Parser);
  delete_first_token : Parser -> Result Parser
}.

Context {H : Host}.

(** *** LazyVariable *)

Definition _replace_django_tags (logic : string) : string :=
  replace "]}" "%}" (replace "{[" "{%" logic).

(** [LazyVariable(logic, tag_library, context)]: a new object, its cache
    attribute not set. *)
Definition LazyVariable__init__ (logic : string) (tag_library : Tags)
    (context : ctx_ref) : M lazy_ref :=
  fun w =>
    let self := {| _tag_library := tag_library;
                   _logic := _replace_django_tags logic;
                   _context := context;
                   _cached_value := None |} in
    (Ok (length (lazies w)),
     {| contexts := contexts w; lazies := lazies w ++ [self] |}).

(** The object a reference points to.  A Python reference always points to
    a live object; the model raises [ReferenceError] for an index that is
    not in the store. *)
Definition deref (self : lazy_ref) : M LazyVariable :=
  fun w =>
    match lazies w !! self with
    | Some obj => (Ok obj, w)
    | None => (Raise ReferenceError, w)
    end.

(** [self._cached_value], [AttributeError] when the attribute is not set. *)
Definition get_cached_value (self : lazy_ref) : M string :=
  bind (deref self) (fun obj =>
    match _cached_value obj with
    | Some value => ret value
    | None => raise AttributeError
    end).

(** [self._cached_value = value] *)
Definition set_cached_value (self : lazy_ref) (value : string) : M unit :=
  fun w =>
    match lazies w !! self with
    | Some obj =>
        (Ok tt,
         {| contexts := contexts w;
            lazies := <[self := {| _tag_library := _tag_library obj;
                                   _logic := _logic obj;
                                   _context := _context obj;
                                   _cached_value := Some value |}]> (lazies w) |})
    | None => (Raise ReferenceError, w)
    end.

Definition _resolve_value (self : lazy_ref) (context : ctx_ref) : M string :=
  bind (deref self) (fun obj =>
  bind (lift (tokenize TEMPLATE_DEBUG (_logic obj))) (fun tokens =>
  let parser := set_tags (Parser_init TEMPLATE_DEBUG tokens) (_tag_library obj) in
  bind (lift (parse parser [])) (fun parsed =>
  render_nodelist (fst parsed) context))).

Definition is_AttributeError (e : exn) : bool :=
  match e with AttributeError => true | _ => false end.

Definition resolve (self : lazy_ref) (context : ctx_ref) : M SafeData :=
  bind (try_except (get_cached_value self) is_AttributeError
          (bind (_resolve_value self context) (fun value =>
           bind (set_cached_value self value) (fun _ => ret value))))
       (fun value => ret (mark_safe value)).

Definition LazyVariable__str__ (self : lazy_ref) : M SafeData :=
  bind (deref self) (fun obj => resolve self (_context obj)).

(** *** TemplateVariableNode *)

Record TemplateVariableNode : Type := {
  _nodelist : list Node;
  _parser : Parser;
  _variable_group_tokens : list (string * string)
}.

Definition nodelist (self : TemplateVariableNode) : list Node := _nodelist self.

(** The loop that fills [variables_context], one [LazyVariable] per token. *)
Fixpoint stage_variables (tags : Tags) (context : ctx_ref)
    (tokens : list (string * string)) (variables_context : gmap string Value)
    : M (gmap string Value) :=
  match tokens with
  | [] => ret variables_context
  | (variable_name, variable_logic) :: rest =>
      bind (LazyVariable__init__ variable_logic tags context) (fun lazy =>
      stage_variables tags context rest
        (<[variable_name := VLazy lazy]> variables_context))
  end.

(** [with self.managed_custom_context(context) as new_context: body]: the
    generator runs up to its [yield], the body of the [with] runs with the
    yielded context, and the [finally] clause runs however the body ends. *)
Definition managed_custom_context {A} (self : TemplateVariableNode)
    (context : ctx_ref) (body : ctx_ref -> M A) : M A :=
  bind (stage_variables (get_tags (_parser self)) context
          (_variable_group_tokens self) ∅) (fun variables_context =>
  bind (push context) (fun custom_context_dict =>
  try_finally
    (bind (update_top custom_context_dict variables_context) (fun _ =>
     body context))
    (pop context))).

Definition render (self : TemplateVariableNode) : Node :=
  fun context =>
    managed_custom_context self context (fun new_context =>
      render_nodelist (nodelist self) new_context).

(** [do_variable(parser, token)], [token_text] being [token.contents].  The
    node keeps the parser; it reads [parser.tags] when it renders. *)
Definition do_variable (parser : Parser) (token_text : string)
    : Result (TemplateVariableNode * Parser) :=
  rbind (str_index token_text " ") (fun i =>
  let variable_token_text := slice_from token_text (i + 1) in
  rbind (get_token_groups variable_token_text) (fun group_tokens =>
  rbind (parse parser ["endvariable"]) (fun parsed =>
  rbind (delete_first_token (snd parsed)) (fun parser' =>
  Ok ({| _nodelist := fst parsed;
         _parser := parser';
         _variable_group_tokens := group_tokens |}, parser'))))).

(** *** Nodes of the host engine

    Modelled from the spec: the host engine's text node and its reference
    to a variable (section 4.3, step 3: a reference to a staged name
    resolves to its Lazy Fragment, whose implicit string conversion calls
    [resolve] against the captured context, section 4.2).  A name that no
    frame binds renders as the empty string. *)
Definition TextNode (s : string) : Node := fun _ => ret s.

Definition VariableNode (name : string) : Node :=
  fun context w =>
    match resolve_name context name w with
    | None => (Ok "", w)
    | Some (VStr s) => (Ok s, w)
    | Some (VLazy lazy) => bind (LazyVariable__str__ lazy) (fun v => ret (unsafe v)) w
    end.

End Embedding.

(** ** Notions the properties are stated with *)

(** [moved w s s']: [s'] is [s] advanced over the characters [w]. *)
Definition moved (w : text) (s s' : cursor) : Prop :=
  ahead s = w ++ ahead s' /\ behind s' = rev w ++ behind s.

(** [reaches r s s']: some way of matching [r] at [s] ends at [s']. *)
Fixpoint reaches (r : regex) (s s' : cursor) : Prop :=
  match r with
  | Chr c => moved [c] s s' /\ marks s' = marks s
  | Seq r1 r2 => exists m, reaches r1 s m /\ reaches r2 m s'
  | Alt r1 r2 => reaches r1 s s' \/ reaches r2 s s'
  | Plus cls =>
      exists w, w <> [] /\ forallb cls w = true /\ moved w s s' /\ marks s' = marks s
  | StarLazy cls =>
      exists w, forallb cls w = true /\ moved w s s' /\ marks s' = marks s
  | Group n r1 =>
      exists m, reaches r1 s m /\
        s' = Cursor (behind m) (ahead m) (set_mark n (captured s m) (marks m))
  | NotBehind w => s' = s /\ is_prefix (rev w) (behind s) = false
  | Ahead r1 =>
      exists m, reaches r1 s m /\ s' = Cursor (behind s) (ahead s) (marks m)
  | Dollar => s' = s /\ (ahead s = [] \/ ahead s = [newline])
  end.

Definition str (t : text) : string := string_of_list_ascii t.

(** The tuples a match of [TOKEN_REGEX] can put in [findall]'s result: a
    name and either a quoted value (group 2, quotes included) whose closing
    quote does not follow a backslash, or a bare word (group 3). *)
Inductive token_tuple : list string -> Prop :=
| quoted_tuple (name body : text) :
    name <> [] -> forallb is_word name = true ->
    forallb is_dot body = true -> last body <> Some backslash ->
    token_tuple [str name; str (dquote :: body ++ [dquote]); ""]
| bare_tuple (name word : text) :
    name <> [] -> forallb is_word name = true ->
    word <> [] -> forallb is_word word = true ->
    token_tuple [str name; ""; str word].

(** The pair [get_token_groups] builds from one tuple of [findall]. *)
Definition token_of (t : list string) : string * string :=
  (nth 0 t "",
   if truthy (nth 1 t "") then strip quote_chars (nth 1 t "") else nth 2 t "").

(** The characters of [[A-Za-z0-9_]]. *)
Definition word_alphabet : string :=
  "abcdefghijklmnopqrstuvwxyzABCDEFGHIJKLMNOPQRSTUVWXYZ0123456789_".

(** A name that matches [[A-Za-z0-9_]+]. *)
Definition valid_name (name : string) : Prop :=
  name <> "" /\
  Forall (fun c => In c (list_ascii_of_string word_alphabet)) (list_ascii_of_string name).

(** A non-empty name of characters that [word] matches. *)
Definition word_name (word : ascii -> bool) (name : string) : Prop :=
  name <> "" /\ forallb word (list_ascii_of_string name) = true.

(** The letter e with an acute accent, code point 233. *)
Definition e_acute : ascii := "233"%char.

(** The token that gives the name e-acute the value 1. *)
Definition e_acute_token : string := String e_acute "=1".

(** [s.endswith(suffix)] *)
Definition endswith (s suffix : string) : bool :=
  is_prefix (rev (list_ascii_of_string suffix)) (rev (list_ascii_of_string s)).

Definition escaped_quote : string := String backslash quote_chars.

(** The token [v=Qsay \Qhi\QQ], writing Q for the double-quote character:
    a quoted value whose last character is an escaped quote. *)
Definition say_hi_token : string :=
  "v=" ++ quote_chars ++ "say \" ++ quote_chars ++ "hi\" ++ quote_chars ++ quote_chars.

(** The token [x=Qa\QbQ], an escaped quote inside a quoted value. *)
Definition escaped_inside_token : string :=
  "x=" ++ quote_chars ++ "a\" ++ quote_chars ++ "b" ++ quote_chars.

Section Notions.
Context {HT : HostTypes} {H : Host}.

(** The [LazyVariable] that the staging loop builds for one token. *)
Definition new_lazy (tags : Tags) (context : ctx_ref) (token : string * string)
    : LazyVariable :=
  {| _tag_library := tags;
     _logic := _replace_django_tags (snd token);
     _context := context;
     _cached_value := None |}.

(** [managed_custom_context] up to its [yield]. *)
Definition enter (self : TemplateVariableNode) (context : ctx_ref) : M unit :=
  bind (stage_variables (get_tags (_parser self)) context
          (_variable_group_tokens self) ∅) (fun variables_context =>
  bind (push context) (fun custom_context_dict =>
  update_top custom_context_dict variables_context)).


(** A node that leaves a context that has frames with as many frames as it
    found, whether it returns or raises.  A node that pushes frames and pops
    them again is one, and so is the render of a block over such nodes. *)
Definition keeps_live_depth (node : Node) : Prop :=
  forall context w n,
    depth context w = Some (S n) ->
    depth context (snd (node context w)) = Some (S n).

(** A node that leaves the frames below the top frame of every context as
    it found them, whether it returns or raises. *)
Definition keeps_below (node : Node) : Prop :=
  forall context w top rest,
    contexts w !! context = Some (top :: rest) ->
    exists top', contexts (snd (node context w)) !! context = Some (top' :: rest).

(** The nodes, rendered one after the other from [w] as far as
    [render_nodelist] renders them, each leave the [LazyVariable] [self] as
    they find it: none of them resolves it or writes its cache. *)
Fixpoint leave_alone (self : lazy_ref) (nodelist : list Node) (context : ctx_ref)
    (w : World) : Prop :=
  match nodelist with
  | [] => True
  | node :: rest =>
      lazies (snd (node context w)) !! self = lazies w !! self /\
      match node context w with
      | (Ok _, w1) => leave_alone self rest context w1
      | (Raise _, _) => True
      end
  end.

(** What [resolve] does when the cache attribute is not set. *)
Definition evaluate_and_cache (self : lazy_ref) (context : ctx_ref) : M SafeData :=
  bind (_resolve_value self context) (fun value =>
  bind (set_cached_value self value) (fun _ => ret (mark_safe value))).

End Notions.

(** The tag text [variable x=QfirstQ x=QsecondQ] (Q the quote character). *)
Definition duplicate_name_tag : string :=
  "variable x=" ++ quote_chars ++ "first" ++ quote_chars
  ++ " x=" ++ quote_chars ++ "second" ++ quote_chars.

(** ** A small host engine, to run the module on

    A template lexes to one token, its text, and parses to one text node;
    the fragment [{% bad %}] names a tag that does not exist. *)

Definition toy_types : HostTypes :=
  {| Tags := unit; Token := string; Parser := list string |}.

Definition toy_tokenize (debug : bool) (s : string) : Result (list string) :=
  if String.eqb s "{% bad %}"
  then Raise (TemplateSyntaxError "Invalid block tag: 'bad'")
  else Ok [s].

Definition toy_parse (parser : list string) (parse_until : list string)
    : Result (list (@Node toy_types) * list string) :=
  Ok (map (@TextNode toy_types) parser, []).

Definition toy_host : @Host toy_types :=
  @Build_Host toy_types
    false                                                  (* TEMPLATE_DEBUG *)
    toy_tokenize                                           (* tokenize *)
    (fun (debug : bool) (tokens : list string) => tokens)  (* Parser_init *)
    (fun (parser : list string) (tags : unit) => parser)   (* set_tags *)
    (fun (parser : list string) => tt)                     (* get_tags *)
    toy_parse                                              (* parse *)
    (fun (parser : list string) => Ok parser).             (* delete_first_token *)

(** A node that raises, and a node that sets the cache of the
    [LazyVariable] 0, as a resolution of that object does that runs to its
    end while the object is being resolved. *)
Definition toy_raising_node : @Node toy_types :=
  fun _ => @raise toy_types string RuntimeError.

Definition toy_writing_node : @Node toy_types :=
  fun _ => @bind toy_types unit string (@set_cached_value toy_types 0 "A")
             (fun _ => @ret toy_types string "").

(** The small host, with a parser that turns every fragment into [nodes]. *)
Definition toy_host_with (nodes : list (@Node toy_types)) : @Host toy_types :=
  @Build_Host toy_types
    false
    toy_tokenize
    (fun (debug : bool) (tokens : list string) => tokens)
    (fun (parser : list string) (tags : unit) => parser)
    (fun (parser : list string) => tt)
    (fun (parser : list string) (parse_until : list string) => Ok (nodes, []))
    (fun (parser : list string) => Ok parser).

(** A world with one context of one empty frame and one [LazyVariable],
    not yet resolved, for the fragment [logic]. *)
Definition toy_world (logic : string) : @World toy_types :=
  @Build_World toy_types {[ 0 := [∅] ]}
    [ @Build_LazyVariable toy_types tt logic 0 None ].

(** A block over the static body [static text] with one attribute. *)
Definition toy_block : @TemplateVariableNode toy_types :=
  @Build_TemplateVariableNode toy_types
    [@TextNode toy_types "static text"] [] [("v", "A")].

(** The block of [duplicate_name_tag] over the body [{{ x }}]. *)
Definition toy_duplicate_block : @TemplateVariableNode toy_types :=
  @Build_TemplateVariableNode toy_types
    [@VariableNode toy_types toy_host "x"] [] [("x", "first"); ("x", "second")].
(** ** Attribute lists as they are written

    An attribute of a tag: a name and a value, the value written either as a
    bare word or between double quotes. *)
Record attribute : Type := {
  attr_name : string;
  attr_value : string;
  attr_quoted : bool
}.

(** [name=value] or [name=QvalueQ] (Q the quote character). *)
Definition format_attribute (a : attribute) : text :=
  list_ascii_of_string (attr_name a) ++
  "="%char ::
  (if attr_quoted a
   then dquote :: list_ascii_of_string (attr_value a) ++ [dquote]
   else list_ascii_of_string (attr_value a)).

(** The attributes, separated by one space. *)
Fixpoint format_attributes (attrs : list attribute) : text :=
  match attrs with
  | [] => []
  | [a] => format_attribute a
  | a :: rest => format_attribute a ++ space :: format_attributes rest
  end.

(** A character a quoted value can hold without ending it: anything but a
    newline and a double quote. *)
Definition is_plain (c : ascii) : bool :=
  is_dot c && negb (Ascii.eqb c dquote).

Definition nonempty (t : text) : bool :=
  match t with [] => false | _ :: _ => true end.

(** An attribute the tokenizer is meant for: its name is a word; a bare
    value is a word; a quoted value holds no quote and no newline and does
    not end in a backslash. *)
Definition well_formed (a : attribute) : bool :=
  let name := list_ascii_of_string (attr_name a) in
  let value := list_ascii_of_string (attr_value a) in
  nonempty name && forallb is_word name &&
  (if attr_quoted a
   then forallb is_plain value &&
        match last value with
        | Some c => negb (Ascii.eqb c backslash)
        | None => true
        end
   else nonempty value && forallb is_word value).

(** What may follow a token: the end of the text or a space. *)
Definition token_end (tail : text) : bool :=
  match tail with
  | [] => true
  | c :: _ => Ascii.eqb c space
  end.

(** The tuple [findall] gives for an attribute. *)
Definition tuple_of (a : attribute) : list string :=
  [attr_name a;
   if attr_quoted a then str (dquote :: list_ascii_of_string (attr_value a) ++ [dquote]) else "";
   if attr_quoted a then "" else attr_value a].

(** [sub in s] *)
Fixpoint occurs (sub s : text) : bool :=
  is_prefix sub s ||
  match s with
  | [] => false
  | _ :: s' => occurs sub s'
  end.

(** A value as the tokenizer returns them: no newline in it, and no double
    quote at either end. *)
Definition clean_value (value : string) : Prop :=
  let v := list_ascii_of_string value in
  ~ In newline v /\ head v <> Some dquote /\ last v <> Some dquote.

(** A block whose body is the block [toy_block]. *)
Definition toy_nested_block : @TemplateVariableNode toy_types :=
  @Build_TemplateVariableNode toy_types
    [@render toy_types toy_host toy_block] [] [("outer", "B")].

(** A block whose attribute holds the fragment [{[ bad ]}], over a static
    body and over a body that refers to the attribute. *)
Definition toy_bad_static_block : @TemplateVariableNode toy_types :=
  @Build_TemplateVariableNode toy_types
    [@TextNode toy_types "static text"] [] [("x", "{[ bad ]}")].

Definition toy_bad_reference_block : @TemplateVariableNode toy_types :=
  @Build_TemplateVariableNode toy_types
    [@VariableNode toy_types toy_host "x"] [] [("x", "{[ bad ]}")].

(** * The matcher *)

Lemma star_greedy_sound cls a : forall b g k x,
  star_greedy cls b a g k = Some x ->
  exists w a', a = w ++ a' /\ forallb cls w = true /\
    k (Cursor (rev w ++ b) a' g) = Some x.
Proof.
  induction a as [|c a IH]; intros b g k x H; simpl in H.
  - exists [], []. auto.
  - destruct (cls c) eqn:Hc.
    + destruct (star_greedy cls (c :: b) a g k) eqn:Hrec.
      * injection H as <-.
        destruct (IH _ _ _ _ Hrec) as (w & a' & -> & Hw & Hk).
        exists (c :: w), a'. simpl. rewrite Hc, Hw.
        repeat split; auto. by rewrite <- app_assoc.
      * exists [], (c :: a). auto.
    + exists [], (c :: a). auto.
Qed.

Lemma star_lazy_sound cls a : forall b g k x,
  star_lazy cls b a g k = Some x ->
  exists w a', a = w ++ a' /\ forallb cls w = true /\
    k (Cursor (rev w ++ b) a' g) = Some x.
Proof.
  induction a as [|c a IH]; intros b g k x H; simpl in H.
  - destruct (k (Cursor b [] g)) eqn:Hk; [|done].
    injection H as <-. exists [], []. auto.
  - destruct (k (Cursor b (c :: a) g)) eqn:Hk.
    + injection H as <-. exists [], (c :: a). auto.
    + destruct (cls c) eqn:Hc; [|done].
      destruct (IH _ _ _ _ H) as (w & a' & -> & Hw & Hk').
      exists (c :: w), a'. simpl. rewrite Hc, Hw.
      repeat split; auto. by rewrite <- app_assoc.
Qed.

(** Whatever the matcher returns was reached by a way of matching the
    pattern that the rest of the pattern accepted. *)
Lemma exec_sound r : forall s k x,
  exec r s k = Some x -> exists s', reaches r s s' /\ k s' = Some x.
Proof.
  induction r as [c|r1 IH1 r2 IH2|r1 IH1 r2 IH2|cls|cls|n r1 IH1|w|r1 IH1|];
    intros s k x H; simpl in H.
  - destruct (ahead s) as [|d a'] eqn:Ha; [done|].
    destruct (Ascii.eqb c d) eqn:Hcd; [|done].
    apply Ascii.eqb_eq in Hcd as <-.
    eexists; split; [|exact H]. unfold reaches, moved. simpl. by rewrite Ha.
  - destruct (IH1 _ _ _ H) as (m & Hm & H2).
    destruct (IH2 _ _ _ H2) as (s' & Hs' & Hk).
    exists s'. split; [|done]. simpl. eauto.
  - destruct (exec r1 s k) eqn:H1.
    + injection H as <-. destruct (IH1 _ _ _ H1) as (s' & ? & ?).
      exists s'. simpl. auto.
    + destruct (IH2 _ _ _ H) as (s' & ? & ?). exists s'. simpl. auto.
  - destruct (ahead s) as [|c a'] eqn:Ha; [done|].
    destruct (cls c) eqn:Hc; [|done].
    destruct (star_greedy_sound _ _ _ _ _ _ H) as (w & a'' & -> & Hw & Hk).
    eexists; split; [|exact Hk]. simpl.
    exists (c :: w). unfold moved. simpl. rewrite Hc, Hw.
    rewrite Ha. repeat split; auto. by rewrite <- app_assoc.
  - destruct (star_lazy_sound _ _ _ _ _ _ H) as (w & a' & Ha & Hw & Hk).
    eexists; split; [|exact Hk]. simpl. exists w. unfold moved. by rewrite Ha.
  - destruct (IH1 _ _ _ H) as (m & Hm & Hk).
    eexists; split; [|exact Hk]. simpl. eauto.
  - destruct (is_prefix (rev w) (behind s)) eqn:Hp; [done|].
    exists s. simpl. auto.
  - destruct (exec r1 s Some) as [s1|] eqn:H1; [|done].
    destruct (IH1 _ _ _ H1) as (m & Hm & [= ->]).
    eexists; split; [|exact H]. simpl. eauto.
  - destruct (ahead s) as [|c [|]] eqn:Ha; [| |done].
    + exists s. simpl. auto.
    + destruct (Ascii.eqb c newline) eqn:Hc; [|done].
      apply Ascii.eqb_eq in Hc as ->. exists s. simpl. auto.
Qed.

Lemma moved_trans w1 w2 s m s' :
  moved w1 s m -> moved w2 m s' -> moved (w1 ++ w2) s s'.
Proof.
  intros [H1 H2] [H3 H4]. split.
  - by rewrite H1, H3, app_assoc.
  - by rewrite H4, H2, rev_app_distr, app_assoc.
Qed.

Lemma captured_moved w s s' : moved w s s' -> captured s s' = w.
Proof.
  intros [H _]. unfold captured. rewrite H, length_app.
  replace (length w + length (ahead s') - length (ahead s')) with (length w) by lia.
  by rewrite firstn_app, Nat.sub_diag, firstn_all, app_nil_r.
Qed.

Lemma not_behind_escape (body rest : text) :
  is_prefix (rev [backslash; dquote]) (rev (dquote :: body ++ [dquote]) ++ rest) = false ->
  last body <> Some backslash.
Proof.
  destruct body as [|c body _] using rev_ind; [done|].
  rewrite last_snoc. intros H [= ->]. revert H.
  simpl. rewrite !rev_app_distr. simpl. done.
Qed.

Lemma token_match_tuple b a s :
  exec TOKEN_REGEX (Cursor b a (fun _ => None)) Some = Some s ->
  token_tuple (groups_of 3 s).
Proof.
  intros H. apply exec_sound in H as (s' & H & [= ->]).
  unfold TOKEN_REGEX in H. cbn [reaches] in H.
  destruct H as (m1 & (m0 & (name & Hne & Hname & Hmv0 & Hg0) & ->)
                 & m2 & (Hmv1 & Hg1) & m4 & Halt & Hend).
  apply captured_moved in Hmv0 as Hcap. rewrite Hcap in *. clear Hcap.
  cbn [marks] in Hg1.
  assert (Hs : marks s = marks m4).
  { destruct Hend as [(m & ((_ & Hm) & ->))|[-> _]]; [exact Hm|done]. }
  unfold groups_of. cbn [seq map]. rewrite Hs. clear Hend Hs s.
  destruct Halt as [(m & (m3 & Hq & ->) & -> & Hnb)|(m3 & (word & Hwne & Hword & Hmv & Hg) & ->)].
  - destruct Hq as (q1 & (Hmq1 & Hgq1) & q2 & (body & Hbody & Hmq2 & Hgq2) & Hmq3 & Hg3).
    pose proof (moved_trans _ _ _ _ _ Hmq1 (moved_trans _ _ _ _ _ Hmq2 Hmq3)) as Hmv.
    apply captured_moved in Hmv as Hcap.
    cbn [marks behind] in *. rewrite Hcap, Hg3, Hgq2, Hgq1, Hg1, Hg0.
    unfold set_mark. cbn [Nat.eqb default].
    destruct Hmv as [_ Hb]. rewrite Hb in Hnb.
    apply not_behind_escape in Hnb.
    by apply (quoted_tuple name body).
  - apply captured_moved in Hmv as Hcap.
    cbn [marks]. rewrite Hcap, Hg, Hg1, Hg0.
    unfold set_mark. cbn [Nat.eqb default].
    by apply (bare_tuple name word).
Qed.

Lemma scan_Forall r n (P : list string -> Prop) :
  (forall b a s, exec r (Cursor b a (fun _ => None)) Some = Some s -> P (groups_of n s)) ->
  forall a skip b, Forall P (scan r n skip b a).
Proof.
  intros HP a. induction a as [|c a IH]; intros skip b; simpl.
  - destruct skip; [|constructor].
    destruct (exec r _ Some) eqn:H; constructor; eauto.
  - destruct skip; [|apply IH].
    destruct (exec r _ Some) eqn:H; [|apply IH].
    constructor; eauto.
Qed.

Lemma findall_token_tuples text :
  Forall token_tuple (findall TOKEN_REGEX text).
Proof. apply scan_Forall. intros b a s. apply token_match_tuple. Qed.

Lemma for_each_token_tuples (ts : list (list string)) :
  Forall token_tuple ts ->
  for_each ts (fun match_ =>
    rbind (item match_ 0) (fun name =>
    rbind (item match_ 1) (fun quoted =>
    rbind (if truthy quoted then Ok (strip quote_chars quoted) else item match_ 2)
          (fun value => Ok (name, value)))))
  = Ok (map token_of ts).
Proof.
  induction 1 as [|t ts Ht _ IH]; [done|].
  cbn [for_each map]. rewrite IH. by destruct Ht.
Qed.

Lemma get_token_groups_eq text :
  get_token_groups text = Ok (map token_of (findall TOKEN_REGEX text)).
Proof. apply for_each_token_tuples, findall_token_tuples. Qed.

(** * The attribute tokenizer *)

Lemma is_word_alphabet c :
  is_word c = true -> In c (list_ascii_of_string word_alphabet).
Proof.
  intros Hc.
  assert (Hex : existsb (Ascii.eqb c) (list_ascii_of_string word_alphabet) = true).
  { rewrite <- Hc. by destruct c as [[] [] [] [] [] [] [] []]. }
  apply existsb_exists in Hex as (d & Hd & Heq).
  by apply Ascii.eqb_eq in Heq as ->.
Qed.

Lemma str_nonempty (t : text) : t <> [] -> str t <> "".
Proof. by destruct t. Qed.

Lemma token_tuple_name t : token_tuple t -> valid_name (fst (token_of t)).
Proof.
  intros [name body Hne Hname _ _|name word Hne Hname _ _]; cbn [token_of nth fst];
    (split; [by apply str_nonempty|]);
    unfold str; rewrite list_ascii_of_string_of_list_ascii;
    apply Forall_forall; intros c Hc; apply is_word_alphabet;
    by eapply forallb_forall in Hname; [|apply list_elem_of_In, Hc].
Qed.

(** An attribute list with a quoted and a bare value, and the rewriting of
    the private brackets of a fragment. *)
Example get_token_groups_greeting :
  get_token_groups ("greeting=" ++ quote_chars ++ "Hello {[ user.name ]}!"
                    ++ quote_chars ++ " count=3")%string
  = Ok [("greeting", "Hello {[ user.name ]}!"); ("count", "3")].
Proof. reflexivity. Qed.

Example replace_brackets :
  replace "]}" "%}" (replace "{[" "{%" "{[ if a ]}x{[ endif ]}")
  = "{% if a %}x{% endif %}".
Proof. reflexivity. Qed.

(** Where [\w] is the ASCII class, every pair the tokenizer returns has a
    name that is non-empty and made of characters of [[A-Za-z0-9_]] only,
    whatever the input. *)
Lemma get_token_groups_names_are_words (text : string) :
  exists groups,
    get_token_groups text = Ok groups /\
    Forall (fun group => valid_name (fst group)) groups.
Proof.
  exists (map token_of (findall TOKEN_REGEX text)).
  split; [apply get_token_groups_eq|].
  apply Forall_map. eapply Forall_impl; [apply findall_token_tuples|].
  intros t. apply token_tuple_name.
Qed.

Lemma TOKEN_REGEX_ascii : TOKEN_REGEX = token_regex is_word.
Proof. reflexivity. Qed.

Lemma token_regex_match word b a s :
  exec (token_regex word) (Cursor b a (fun _ => None)) Some = Some s ->
  exists name, name <> [] /\ forallb word name = true /\ marks s 1 = Some name.
Proof.
  intros H. apply exec_sound in H as (s' & H & [= ->]).
  unfold token_regex in H. cbn [reaches] in H.
  destruct H as (m1 & (m0 & (name & Hne & Hname & Hmv0 & Hg0) & ->)
                 & m2 & (Hmv1 & Hg1) & m4 & Halt & Hend).
  apply captured_moved in Hmv0 as Hcap. rewrite Hcap in *. clear Hcap.
  cbn [marks] in Hg1.
  assert (Hs : marks s = marks m4).
  { destruct Hend as [(m & ((_ & Hm) & ->))|[-> _]]; [exact Hm|done]. }
  exists name. split; [done|]. split; [done|]. rewrite Hs.
  destruct Halt as [(m & (m3 & Hq & ->) & -> & _)|(m3 & (w & _ & _ & _ & Hg) & ->)].
  - destruct Hq as (q1 & (_ & Hgq1) & q2 & (body & _ & _ & Hgq2) & _ & Hg3).
    cbn [marks]. by rewrite Hg3, Hgq2, Hgq1, Hg1.
  - cbn [marks]. by rewrite Hg, Hg1.
Qed.

Lemma findall_token_regex_names word text :
  Forall (fun t => exists name g2 g3,
            t = [name; g2; g3] /\ word_name word name)
         (findall (token_regex word) text).
Proof.
  apply scan_Forall. intros b a s Hs.
  apply token_regex_match in Hs as (name & Hne & Hname & Hmark).
  unfold groups_of. cbn [ngroups token_regex Nat.add seq map]. rewrite Hmark.
  eexists _, _, _. split; [reflexivity|]. split.
  - by destruct name.
  - cbn [default from_option id]. by rewrite list_ascii_of_string_of_list_ascii.
Qed.

Lemma for_each_triples (ts : list (list string)) :
  Forall (fun t => exists name g2 g3, t = [name; g2; g3]) ts ->
  for_each ts (fun match_ =>
    rbind (item match_ 0) (fun name =>
    rbind (item match_ 1) (fun quoted =>
    rbind (if truthy quoted then Ok (strip quote_chars quoted) else item match_ 2)
          (fun value => Ok (name, value)))))
  = Ok (map token_of ts).
Proof.
  induction 1 as [|t ts (name & g2 & g3 & ->) _ IH]; [done|].
  cbn [for_each map]. rewrite IH. unfold token_of. cbn [item nth_error nth rbind].
  by destruct (truthy g2).
Qed.

Lemma is_word_unicode_ascii c :
  is_word_unicode c = true -> nat_of_ascii c < 128 ->
  In c (list_ascii_of_string word_alphabet).
Proof.
  intros Hc Hlt. apply is_word_alphabet.
  destruct c as [b0 b1 b2 b3 b4 b5 b6 [|]].
  - exfalso. revert Hlt. clear.
    destruct b0, b1, b2, b3, b4, b5, b6; vm_compute; lia.
  - revert Hc. clear. by destruct b0, b1, b2, b3, b4, b5, b6.
Qed.

(** C8, as the code has it: every name is non-empty and made of characters
    that [\w] matches.  On Python 3 these are the letters and digits of
    Unicode and the underscore; where [\w] is the ASCII class they are the
    characters of [[A-Za-z0-9_]], and the ASCII characters of a name are
    among these on either reading. *)
Theorem get_token_groups_names_are_word_characters :
  (forall text : string,
     exists groups,
       get_token_groups_unicode text = Ok groups /\
       Forall (fun group => word_name is_word_unicode (fst group)) groups) /\
  (forall text : string,
     exists groups,
       get_token_groups text = Ok groups /\
       Forall (fun group => valid_name (fst group)) groups) /\
  (forall c, is_word_unicode c = true -> nat_of_ascii c < 128 ->
             In c (list_ascii_of_string word_alphabet)).
Proof.
  split; [|split].
  - intros text. exists (map token_of (findall TOKEN_REGEX_unicode text)).
    pose proof (findall_token_regex_names is_word_unicode text) as Hall.
    split.
    + apply for_each_triples. eapply Forall_impl; [exact Hall|].
      intros t (name & g2 & g3 & -> & _). eauto.
    + apply Forall_map. eapply Forall_impl; [exact Hall|].
      by intros t (name & g2 & g3 & -> & Hname).
  - apply get_token_groups_names_are_words.
  - apply is_word_unicode_ascii.
Qed.

(** Counterexample to C8 as it was written: on Python 3 the tokenizer
    returns the name e-acute, which is not over [[A-Za-z0-9_]]. *)
Lemma get_token_groups_unicode_name_not_ascii :
  get_token_groups_unicode e_acute_token = Ok [(String e_acute "", "1")] /\
  ~ valid_name (String e_acute "").
Proof.
  split; [reflexivity|].
  intros [_ Hname]. apply Forall_inv in Hname. cbn in Hname.
  repeat (destruct Hname as [Hname|Hname]; [discriminate Hname|]). exact Hname.
Qed.

Lemma endswith_snoc (t suffix : text) (c : ascii) :
  endswith (str (t ++ [c])) (str (suffix ++ [c])) = endswith (str t) (str suffix).
Proof.
  unfold endswith, str. rewrite !list_ascii_of_string_of_list_ascii, !rev_app_distr.
  simpl. by rewrite Ascii.eqb_refl.
Qed.

Lemma endswith_last (t : text) (c : ascii) :
  endswith (str t) (str [c]) = true -> last t = Some c.
Proof.
  unfold endswith, str. rewrite !list_ascii_of_string_of_list_ascii.
  destruct t as [|d t _] using rev_ind; [done|].
  rewrite rev_app_distr, last_snoc. simpl.
  destruct (Ascii.eqb c d) eqn:Hcd; [|done].
  by apply Ascii.eqb_eq in Hcd as ->.
Qed.

Lemma token_tuple_quoted t quoted :
  token_tuple t -> item t 1 = Ok quoted -> truthy quoted = true ->
  endswith quoted quote_chars = true /\ endswith quoted escaped_quote = false.
Proof.
  intros [name body _ _ _ Hlast|name word _ _ _ _] [= <-] Htrue; [|done].
  change (String dquote (str (body ++ [dquote])))
    with (str ((dquote :: body) ++ [dquote])).
  split.
  - change quote_chars with (str ([] ++ [dquote])). by rewrite endswith_snoc.
  - change escaped_quote with (str ([backslash] ++ [dquote])).
    rewrite endswith_snoc.
    destruct (endswith (str (dquote :: body)) (str [backslash])) eqn:He; [|done].
    apply endswith_last in He. destruct body as [|c body]; [done|].
    by rewrite last_cons_cons in He.
Qed.

(** C9: whenever a match takes the quoted alternative, the quoted text
    (group 2) ends in a quote that no backslash precedes; where a quote
    follows a backslash the match goes on to a later closing quote, as in
    [escaped_inside_token]. *)
Theorem quoted_match_never_ends_in_escaped_quote :
  (forall text : string,
     Forall (fun match_ => forall quoted,
               item match_ 1 = Ok quoted -> truthy quoted = true ->
               endswith quoted quote_chars = true /\
               endswith quoted escaped_quote = false)
            (findall TOKEN_REGEX text)) /\
  findall TOKEN_REGEX escaped_inside_token
  = [["x"; (quote_chars ++ "a\" ++ quote_chars ++ "b" ++ quote_chars)%string; ""]].
Proof.
  split; [|reflexivity].
  intros text. eapply Forall_impl; [apply findall_token_tuples|].
  intros t Ht quoted. by apply token_tuple_quoted.
Qed.

Lemma token_match_has_equals b a s :
  exec TOKEN_REGEX (Cursor b a (fun _ => None)) Some = Some s -> In "="%char a.
Proof.
  intros H. apply exec_sound in H as (s' & H & _).
  unfold TOKEN_REGEX in H. cbn [reaches] in H.
  destruct H as (m1 & (m0 & (name & _ & _ & [Ha _] & _) & ->)
                 & m2 & ([Hb _] & _) & _).
  cbn [ahead] in *. rewrite Ha, Hb. apply in_or_app. right. by left.
Qed.

Lemma scan_without_equals n a : forall skip b,
  ~ In "="%char a -> scan TOKEN_REGEX n skip b a = [].
Proof.
  induction a as [|c a IH]; intros skip b Hno; cbn [scan].
  - destruct skip; [|done].
    destruct (exec TOKEN_REGEX _ Some) eqn:H; [|done].
    by apply token_match_has_equals in H.
  - assert (Hno' : ~ In "="%char a) by (intros ?; apply Hno; by right).
    destruct skip; [|by apply IH].
    destruct (exec TOKEN_REGEX _ Some) eqn:H; [|by apply IH].
    by apply token_match_has_equals in H.
Qed.

(** C7: on every input the tokenizer returns a list, one pair per match
    and none when nothing matches (as when the input has no [=]); text
    that is no [name=value] fragment is passed over, as [???] is below. *)
Theorem get_token_groups_never_raises :
  (forall text : string,
     exists groups,
       get_token_groups text = Ok groups /\
       length groups = length (findall TOKEN_REGEX text) /\
       (findall TOKEN_REGEX text = [] -> groups = []) /\
       (~ In "="%char (list_ascii_of_string text) -> groups = [])) /\
  get_token_groups "a=1 ??? b=2 =c" = Ok [("a", "1"); ("b", "2")].
Proof.
  split; [|reflexivity].
  intros text. exists (map token_of (findall TOKEN_REGEX text)).
  split; [apply get_token_groups_eq|].
  split; [apply length_map|].
  split; [by intros ->|].
  intros Hno. unfold findall. by rewrite scan_without_equals.
Qed.

(** C3, where the code departs from it: in [say_hi_token] the quoted text
    is [Qsay \Qhi\QQ] (Q the quote character), so the text between its
    surrounding quotes is [say \Qhi\Q], but [strip] removes both trailing
    quotes and the value returned is [say \Qhi\]. *)
Theorem get_token_groups_strips_every_quote :
  findall TOKEN_REGEX say_hi_token
  = [["v"; (quote_chars ++ "say \" ++ quote_chars ++ "hi\" ++ quote_chars ++ quote_chars)%string; ""]] /\
  get_token_groups say_hi_token = Ok [("v", ("say \" ++ quote_chars ++ "hi\")%string)].
Proof. split; reflexivity. Qed.

(** * LazyVariable: the two paths of [resolve] *)

Section Resolve.
Context {HT : HostTypes} {H : Host}.


Lemma resolve_uncached self context w obj :
  lazies w !! self = Some obj -> _cached_value obj = None ->
  resolve self context w = evaluate_and_cache self context w.
Proof.
  intros Hobj Hcache.
  unfold resolve, evaluate_and_cache, bind, try_except, get_cached_value, bind, deref.
  rewrite Hobj, Hcache. cbn [raise is_AttributeError].
  destruct (_resolve_value self context w) as [[value|e] w1]; [|done].
  by destruct (set_cached_value self value w1) as [[[]|e] w2].
Qed.



End Resolve.

(** * Rendering *)

Section Properties.
Context {HT : HostTypes} {H : Host}.

Lemma stage_variables_spec tags context tokens : forall acc w,
  exists vars,
    stage_variables tags context tokens acc w
    = (Ok vars, {| contexts := contexts w;
                   lazies := lazies w ++ map (new_lazy tags context) tokens |}) /\
    (forall name, ~ In name (map fst tokens) -> vars !! name = acc !! name) /\
    (forall name, In name (map fst tokens) -> exists lazy, vars !! name = Some (VLazy lazy)) /\
    (forall pre name logic post,
        tokens = pre ++ (name, logic) :: post -> ~ In name (map fst post) ->
        vars !! name = Some (VLazy (length (lazies w) + length pre))).
Proof.
  induction tokens as [|[n l] tokens IH]; intros acc w.
  - exists acc. cbn [stage_variables map]. rewrite app_nil_r.
    split; [by destruct w|]. split; [done|]. split; [done|].
    intros [|] ????; done.
  - cbn [stage_variables]. unfold bind, LazyVariable__init__.
    destruct (IH (<[n := VLazy (length (lazies w))]> acc)
                {| contexts := contexts w;
                   lazies := lazies w ++ [new_lazy tags context (n, l)] |})
      as (vars & Hrun & Hout & Hin & Hlast).
    cbn [contexts lazies] in *. exists vars. split; [|split; [|split]].
    + unfold new_lazy at 1 in Hrun. cbn [snd] in Hrun. rewrite Hrun.
      by rewrite <- app_assoc.
    + intros name Hname. rewrite Hout.
      * apply lookup_insert_ne. intros ->. apply Hname. by left.
      * intros ?. apply Hname. by right.
    + intros name Hname.
      destruct (in_dec string_dec name (map fst tokens)) as [Hrest|Hrest]; [by apply Hin|].
      destruct Hname as [<-|]; [|done].
      rewrite (Hout _ Hrest). cbn [fst]. rewrite lookup_insert_eq. eauto.
    + intros [|p pre] name logic post Heq Hpost; simplify_eq/=.
      * rewrite (Hout _ Hpost), lookup_insert_eq. by rewrite Nat.add_0_r.
      * rewrite (Hlast _ _ _ _ eq_refl Hpost).
        rewrite length_app. cbn [length]. do 2 f_equal. lia.
Qed.

Lemma enter_spec self context w frames :
  contexts w !! context = Some frames ->
  exists vars,
    enter self context w
    = (Ok tt,
       {| contexts := <[context := vars :: frames]> (contexts w);
          lazies := lazies w ++ map (new_lazy (get_tags (_parser self)) context)
                                    (_variable_group_tokens self) |}) /\
    (forall name, In name (map fst (_variable_group_tokens self)) ->
       exists lazy, vars !! name = Some (VLazy lazy)) /\
    (forall pre name logic post,
        _variable_group_tokens self = pre ++ (name, logic) :: post ->
        ~ In name (map fst post) ->
        vars !! name = Some (VLazy (length (lazies w) + length pre))).
Proof.
  intros Hctx.
  destruct (stage_variables_spec (get_tags (_parser self)) context
              (_variable_group_tokens self) ∅ w)
    as (vars & Hrun & _ & Hin & Hlast).
  exists vars. split; [|done].
  unfold enter, bind. rewrite Hrun.
  unfold push, update_top, set_frames. cbn [contexts lazies].
  rewrite Hctx. cbn [contexts lazies]. rewrite lookup_insert_eq.
  cbn [contexts lazies]. by rewrite insert_insert_eq, (right_id_L ∅ (∪)).
Qed.

Lemma managed_custom_context_spec {A} self context (body : ctx_ref -> M A) w w1 :
  enter self context w = (Ok tt, w1) ->
  managed_custom_context self context body w
  = try_finally (body context) (pop context) w1.
Proof.
  unfold enter, managed_custom_context, bind, try_finally.
  destruct (stage_variables _ _ _ _ w) as [[vars|e] w0]; [|done].
  destruct (push context w0) as [[d|e] wp] eqn:Hpush; [|done].
  assert (d = context) as ->.
  { unfold push in Hpush. destruct (contexts w0 !! context); by simplify_eq. }
  destruct (update_top context vars wp) as [[[]|e] wu]; [|done].
  by intros [= ->].
Qed.

Lemma try_finally_snd {A} (m : M A) (fin : M unit) w :
  snd (try_finally m fin w) = snd (fin (snd (m w))).
Proof.
  unfold try_finally. destruct (m w) as [r w1]. cbn [snd].
  by destruct (fin w1) as [[[]|e] w2].
Qed.

Lemma render_nodelist_preserves (R : World -> World -> Prop) nodelist context :
  (forall w, R w w) ->
  (forall a b c, R a b -> R b c -> R a c) ->
  Forall (fun node : Node => forall w, R w (snd (node context w))) nodelist ->
  forall w, R w (snd (render_nodelist nodelist context w)).
Proof.
  intros Hrefl Htrans Hnodes.
  assert (Heach : forall w, R w (snd (render_each nodelist context w))).
  { induction Hnodes as [|node rest Hnode _ IH]; intros w; [apply Hrefl|].
    cbn [render_each]. unfold bind. specialize (Hnode w).
    destruct (node context w) as [[out|e] w1]; [|done]. cbn [snd] in Hnode.
    specialize (IH w1).
    destruct (render_each rest context w1) as [[outs|e] w2]; cbn [snd] in *;
      by eapply Htrans. }
  intros w. unfold render_nodelist, bind. specialize (Heach w).
  by destruct (render_each nodelist context w) as [[outs|e] w1].
Qed.

Lemma pop_below context w top rest :
  contexts w !! context = Some (top :: rest) -> rest <> [] ->
  pop context w = (Ok tt, set_frames context rest w).
Proof. intros Hctx Hrest. unfold pop. rewrite Hctx. by destruct rest. Qed.

Lemma depth_Some context w k :
  depth context w = Some k <->
  exists frames, contexts w !! context = Some frames /\ length frames = k.
Proof.
  unfold depth. rewrite fmap_Some.
  split; intros (frames & ? & ?); exists frames; auto.
Qed.

Lemma render_unfold self context w w1 :
  enter self context w = (Ok tt, w1) ->
  render self context w
  = try_finally (render_nodelist (nodelist self) context) (pop context) w1.
Proof. intros Henter. unfold render. by erewrite managed_custom_context_spec. Qed.

Lemma render_depth self context w n :
  Forall keeps_live_depth (nodelist self) ->
  depth context w = Some (S n) ->
  depth context (snd (render self context w)) = Some (S n).
Proof.
  intros Hbody Hdepth.
  apply depth_Some in Hdepth as (frames & Hctx & Hlen).
  destruct (enter_spec self context w frames Hctx) as (vars & Henter & _).
  rewrite (render_unfold _ _ _ _ Henter), try_finally_snd.
  set (w1 := {| contexts := _; lazies := _ |}) in *.
  assert (Hbodyd : depth context (snd (render_nodelist (nodelist self) context w1))
                   = Some (S (S n))).
  { apply (render_nodelist_preserves
             (fun a b => forall k, depth context a = Some (S k) ->
                                   depth context b = Some (S k))
             (nodelist self) context) with (w := w1).
    - done.
    - intros a b c Hab Hbc k Ha. by apply Hbc, Hab.
    - eapply Forall_impl; [exact Hbody|]. intros node Hnode w0 k. apply Hnode.
    - apply depth_Some. exists (vars :: frames). subst w1. cbn [contexts].
      rewrite lookup_insert_eq. cbn [length]. by rewrite Hlen. }
  apply depth_Some in Hbodyd as (fs & Hfs & Hfl).
  destruct fs as [|top [|below rest]]; [done|done|].
  rewrite (pop_below _ _ top (below :: rest)); [|done|done].
  apply depth_Some. exists (below :: rest). unfold set_frames. cbn [snd contexts].
  rewrite lookup_insert_eq. split; [done|]. cbn [length] in *. lia.
Qed.

(** The render of a block is itself a node that keeps the number of frames
    of a live context: blocks can hold blocks. *)
Lemma render_keeps_live_depth self :
  Forall keeps_live_depth (nodelist self) -> keeps_live_depth (render self).
Proof. intros Hbody context w n. by apply render_depth. Qed.

Lemma TextNode_keeps_live_depth s : keeps_live_depth (TextNode s).
Proof. by intros context w n. Qed.

(** C1: a render of the block pushes one frame before the body and pops
    one after it, whether the body returns or raises ([outcome] is either),
    so a context that has frames has as many after the call as before it,
    and so it has again after a later render.  The nodes of the body are to
    keep the number of frames of a live context themselves, as nodes that
    pop what they push and blocks inside the block do. *)
Theorem render_restores_frame_count self context w n :
  Forall keeps_live_depth (nodelist self) ->
  depth context w = Some (S n) ->
  (exists w1,
      enter self context w = (Ok tt, w1) /\
      depth context w1 = Some (S (S n)) /\
      render self context w
      = try_finally (render_nodelist (nodelist self) context) (pop context) w1) /\
  (forall outcome w',
      render self context w = (outcome, w') ->
      depth context w' = depth context w /\
      forall self' outcome' w'',
        Forall keeps_live_depth (nodelist self') ->
        render self' context w' = (outcome', w'') ->
        depth context w'' = depth context w).
Proof.
  intros Hbody Hdepth. split.
  - apply depth_Some in Hdepth as (frames & Hctx & Hlen).
    destruct (enter_spec self context w frames Hctx) as (vars & Henter & _).
    eexists. split; [exact Henter|]. split; [|by apply render_unfold].
    apply depth_Some. exists (vars :: frames). cbn [contexts].
    rewrite lookup_insert_eq. cbn [length]. by rewrite Hlen.
  - intros outcome w' Hrender.
    pose proof (render_depth self context w n Hbody Hdepth) as Hafter.
    rewrite Hrender in Hafter. cbn [snd] in Hafter.
    split; [congruence|].
    intros self' outcome' w'' Hbody' Hrender'.
    pose proof (render_depth self' context w' n Hbody' Hafter) as Hlater.
    rewrite Hrender' in Hlater. cbn [snd] in Hlater. congruence.
Qed.

Lemma render_frames self context w frames :
  Forall keeps_below (nodelist self) ->
  contexts w !! context = Some frames -> frames <> [] ->
  contexts (snd (render self context w)) !! context = Some frames.
Proof.
  intros Hbody Hctx Hne.
  destruct (enter_spec self context w frames Hctx) as (vars & Henter & _).
  rewrite (render_unfold _ _ _ _ Henter), try_finally_snd.
  set (w1 := {| contexts := _; lazies := _ |}) in *.
  assert (Hbelow : exists top,
             contexts (snd (render_nodelist (nodelist self) context w1)) !! context
             = Some (top :: frames)).
  { apply (render_nodelist_preserves
             (fun a b => forall top, contexts a !! context = Some (top :: frames) ->
                         exists top', contexts b !! context = Some (top' :: frames))
             (nodelist self) context) with (w := w1) (top := vars).
    - eauto.
    - intros a b c Hab Hbc top Ha. destruct (Hab _ Ha) as (top' & Hb). eauto.
    - eapply Forall_impl; [exact Hbody|]. intros node Hnode w0 top. apply Hnode.
    - subst w1. cbn [contexts]. by rewrite lookup_insert_eq. }
  destruct Hbelow as (top & Htop).
  rewrite (pop_below _ _ top frames); [|done|done].
  unfold set_frames. cbn [snd contexts]. by rewrite lookup_insert_eq.
Qed.

(** C6: the names of the attribute list are bound in the frame that the
    block pushes, which is the top frame when the body starts; when the
    render has returned or raised the frames of the context are those it
    had before the call, so every name resolves as it did then. *)
Theorem render_names_do_not_leak self context w frames :
  Forall keeps_below (nodelist self) ->
  contexts w !! context = Some frames -> frames <> [] ->
  (exists w1 frame,
      enter self context w = (Ok tt, w1) /\
      render self context w
      = try_finally (render_nodelist (nodelist self) context) (pop context) w1 /\
      contexts w1 !! context = Some (frame :: frames) /\
      forall name, In name (map fst (_variable_group_tokens self)) ->
        exists lazy, frame !! name = Some (VLazy lazy) /\
                     resolve_name context name w1 = Some (VLazy lazy)) /\
  contexts (snd (render self context w)) !! context = Some frames /\
  (forall name,
      resolve_name context name (snd (render self context w))
      = resolve_name context name w).
Proof.
  intros Hbody Hctx Hne. split; [|split].
  - destruct (enter_spec self context w frames Hctx) as (vars & Henter & Hin & _).
    eexists _, vars. split; [exact Henter|]. split; [by apply render_unfold|].
    cbn [contexts]. rewrite lookup_insert_eq. split; [done|].
    intros name Hname. destruct (Hin _ Hname) as (lazy & Hlazy).
    exists lazy. split; [done|]. unfold resolve_name. cbn [contexts].
    rewrite lookup_insert_eq. cbn [lookup_frames]. by rewrite Hlazy.
  - by apply render_frames.
  - intros name. unfold resolve_name.
    by rewrite (render_frames self context w frames), Hctx.
Qed.


Lemma render_nodelist_leaves self nodelist context : forall w,
  leave_alone self nodelist context w ->
  lazies (snd (render_nodelist nodelist context w)) !! self = lazies w !! self.
Proof.
  assert (Heach : forall w, leave_alone self nodelist context w ->
            lazies (snd (render_each nodelist context w)) !! self = lazies w !! self).
  { induction nodelist as [|node rest IH]; intros w Hleave; [done|].
    cbn [leave_alone] in Hleave. destruct Hleave as [Hnode Hrest].
    cbn [render_each]. unfold bind.
    destruct (node context w) as [[out|e] w1]; cbn [snd] in *; [|done].
    specialize (IH w1 Hrest).
    destruct (render_each rest context w1) as [[outs|e] w2];
      unfold ret; cbn [snd] in *; congruence. }
  intros w Hleave. unfold render_nodelist, bind. specialize (Heach w Hleave).
  by destruct (render_each nodelist context w) as [[outs|e] w1].
Qed.

(** Nodes that leave the object alone in every world leave it alone in
    every run. *)
Lemma leave_alone_Forall self nodelist context w :
  Forall (fun node : Node =>
            forall context w, lazies (snd (node context w)) !! self = lazies w !! self)
         nodelist ->
  leave_alone self nodelist context w.
Proof.
  intros Hall. revert w.
  induction Hall as [|node rest Hnode _ IH]; intros w; [done|].
  cbn [leave_alone]. split; [apply Hnode|].
  by destruct (node context w) as [[out|e] w1].
Qed.

Lemma resolve_value_leaves self context w obj :
  lazies w !! self = Some obj ->
  (forall tokens nodes parser',
      tokenize TEMPLATE_DEBUG (_logic obj) = Ok tokens ->
      parse (set_tags (Parser_init TEMPLATE_DEBUG tokens) (_tag_library obj)) []
      = Ok (nodes, parser') ->
      leave_alone self nodes context w) ->
  lazies (snd (_resolve_value self context w)) !! self = Some obj.
Proof.
  intros Hobj Hleave. unfold _resolve_value, bind, deref, lift. rewrite Hobj.
  destruct (tokenize TEMPLATE_DEBUG (_logic obj)) as [tokens|e] eqn:Hlex; [|done].
  destruct (parse _ []) as [[nodes parser']|e] eqn:Hparse; [|done].
  cbn [fst]. rewrite render_nodelist_leaves; [done|]. by eapply Hleave.
Qed.

(** C10, as the code has it: a call of [resolve] that finds the cache cell
    unset and raises has assigned nothing, the exception having left
    [resolve] before the assignment: the world it leaves is the one the
    evaluation of the fragment left.  When the lexer or the parser raised,
    or the nodes of the fragment, as far as they were rendered, left the
    object alone, the exception is that of the evaluation, the cell is
    still unset and the next call evaluates the fragment again. *)
Theorem resolve_failure_assigns_nothing self context w w' e obj :
  lazies w !! self = Some obj ->
  _cached_value obj = None ->
  resolve self context w = (Raise e, w') ->
  w' = snd (_resolve_value self context w) /\
  ((forall tokens nodes parser',
       tokenize TEMPLATE_DEBUG (_logic obj) = Ok tokens ->
       parse (set_tags (Parser_init TEMPLATE_DEBUG tokens) (_tag_library obj)) []
       = Ok (nodes, parser') ->
       leave_alone self nodes context w) ->
   _resolve_value self context w = (Raise e, w') /\
   lazies w' !! self = Some obj /\
   forall context2,
     resolve self context2 w' = evaluate_and_cache self context2 w').
Proof.
  intros Hobj Hcache Hcall.
  rewrite (resolve_uncached _ _ _ _ Hobj Hcache) in Hcall.
  unfold evaluate_and_cache, bind in Hcall.
  assert (Hworld : w' = snd (_resolve_value self context w)).
  { destruct (_resolve_value self context w) as [[v|e1] w1]; cbn [snd].
    - unfold set_cached_value in Hcall.
      destruct (lazies w1 !! self); by injection Hcall.
    - by injection Hcall. }
  split; [done|]. intros Hleave.
  pose proof (resolve_value_leaves self context w obj Hobj Hleave) as Hkept.
  rewrite <- Hworld in Hkept.
  destruct (_resolve_value self context w) as [[v|e1] w1]; cbn [snd] in Hworld; subst w1.
  - unfold set_cached_value in Hcall. by rewrite Hkept in Hcall.
  - injection Hcall as <-. split; [done|]. split; [done|].
    intros context2. by eapply resolve_uncached.
Qed.

(** C4, where the code departs from it: the text of a tag without
    attributes has no space, and [token_text.index(' ')] raises. *)
Theorem do_variable_bare_tag_raises (parser : Parser) :
  do_variable parser "variable" = Raise ValueError.
Proof. reflexivity. Qed.

Lemma duplicate_name_attributes :
  rbind (str_index duplicate_name_tag " ") (fun i =>
    get_token_groups (slice_from duplicate_name_tag (i + 1)))
  = Ok [("x", "first"); ("x", "second")].
Proof. reflexivity. Qed.

Lemma render_reference self context w frames pre name logic post tokens out parser' :
  _variable_group_tokens self = pre ++ (name, logic) :: post ->
  ~ In name (map fst post) ->
  nodelist self = [VariableNode name] ->
  contexts w !! context = Some frames -> frames <> [] ->
  tokenize TEMPLATE_DEBUG (_replace_django_tags logic) = Ok tokens ->
  parse (set_tags (Parser_init TEMPLATE_DEBUG tokens) (get_tags (_parser self))) []
  = Ok ([TextNode out], parser') ->
  fst (render self context w) = Ok out.
Proof.
  intros Htokens Hpost Hbody Hctx Hne Hlex Hparse.
  destruct (enter_spec self context w frames Hctx) as (vars & Henter & _ & Hlast).
  specialize (Hlast _ _ _ _ Htokens Hpost).
  rewrite (render_unfold _ _ _ _ Henter), Hbody.
  set (tags := get_tags (_parser self)) in *.
  set (lazy := length (lazies w) + length pre) in *.
  set (w1 := {| contexts := _; lazies := _ |}) in *.
  assert (Hobj : lazies w1 !! lazy = Some (new_lazy tags context (name, logic))).
  { subst w1 lazy. cbn [lazies]. rewrite Htokens, map_app, app_assoc. cbn [map].
    apply list_lookup_middle. by rewrite length_app, length_map. }
  assert (Hframes : contexts w1 !! context = Some (vars :: frames)).
  { subst w1. cbn [contexts]. by rewrite lookup_insert_eq. }
  clearbody w1 lazy tags.
  assert (Heval : _resolve_value lazy context w1 = (Ok out, w1)).
  { unfold _resolve_value, bind, deref, lift. rewrite Hobj.
    cbn [_logic _tag_library new_lazy snd]. rewrite Hlex, Hparse.
    cbn [fst]. unfold render_nodelist, bind. cbn [render_each].
    unfold bind, TextNode, ret, join. cbn [String.concat]. done. }
  destruct (set_cached_value lazy out w1) as [r w2] eqn:Hset.
  assert (r = Ok tt /\ contexts w2 = contexts w1) as [-> Hsame].
  { unfold set_cached_value in Hset. rewrite Hobj in Hset. by injection Hset as <- <-. }
  assert (Hres : resolve lazy context w1 = (Ok (mark_safe out), w2)).
  { rewrite (resolve_uncached _ _ _ _ Hobj eq_refl).
    unfold evaluate_and_cache, bind. by rewrite Heval, Hset. }
  assert (Hnode : VariableNode name context w1 = (Ok out, w2)).
  { unfold VariableNode, resolve_name. rewrite Hframes. cbn [lookup_frames].
    rewrite Hlast. unfold LazyVariable__str__, bind, deref. rewrite Hobj.
    cbn [_context new_lazy]. by rewrite Hres. }
  unfold try_finally, render_nodelist, bind. cbn [render_each].
  unfold bind. rewrite Hnode. cbn [ret render_each].
  rewrite (pop_below _ _ vars frames); [|by rewrite Hsame|done].
  unfold join. cbn [String.concat fst]. done.
Qed.

(** C5: a name that occurs more than once is staged with the
    [LazyVariable] of its last occurrence, which is what the name resolves
    to when the body starts; the tag text [duplicate_name_tag] gives the
    attributes [x=first] and [x=second] in this order, and with the body
    [{{ x }}] its block renders [second], for any host engine whose lexer
    and parser turn the fragment [second] into the text node [second]. *)
Theorem render_duplicate_name_last_wins :
  (forall self context w frames pre name logic post,
      contexts w !! context = Some frames ->
      _variable_group_tokens self = pre ++ (name, logic) :: post ->
      ~ In name (map fst post) ->
      exists w1 lazy,
        enter self context w = (Ok tt, w1) /\
        resolve_name context name w1 = Some (VLazy lazy) /\
        lazies w1 !! lazy
        = Some (new_lazy (get_tags (_parser self)) context (name, logic))) /\
  (forall parser node parser',
      do_variable parser duplicate_name_tag = Ok (node, parser') ->
      _variable_group_tokens node = [("x", "first"); ("x", "second")]) /\
  (forall self context w frames tokens parser',
      _variable_group_tokens self = [("x", "first"); ("x", "second")] ->
      nodelist self = [VariableNode "x"] ->
      contexts w !! context = Some frames -> frames <> [] ->
      tokenize TEMPLATE_DEBUG "second" = Ok tokens ->
      parse (set_tags (Parser_init TEMPLATE_DEBUG tokens) (get_tags (_parser self))) []
      = Ok ([TextNode "second"], parser') ->
      fst (render self context w) = Ok "second").
Proof.
  split; [|split].
  - intros self context w frames pre name logic post Hctx Htokens Hpost.
    destruct (enter_spec self context w frames Hctx) as (vars & Henter & _ & Hlast).
    specialize (Hlast _ _ _ _ Htokens Hpost).
    eexists _, _. split; [exact Henter|]. split.
    + unfold resolve_name. cbn [contexts]. rewrite lookup_insert_eq.
      cbn [lookup_frames]. by rewrite Hlast.
    + cbn [lazies]. rewrite Htokens, map_app, app_assoc. cbn [map].
      apply list_lookup_middle. by rewrite length_app, length_map.
  - intros parser node parser' Hdo. unfold do_variable in Hdo.
    pose proof duplicate_name_attributes as Hattrs.
    destruct (str_index duplicate_name_tag " ") as [i|e]; [|done].
    cbn [rbind] in Hattrs, Hdo. rewrite Hattrs in Hdo. cbn [rbind] in Hdo.
    destruct (parse parser ["endvariable"]) as [parsed|e]; [|done].
    cbn [rbind] in Hdo.
    destruct (delete_first_token parsed.2) as [p|e]; [|done].
    by injection Hdo as <- <-.
  - intros self context w frames tokens parser' Htokens Hbody Hctx Hne Hlex Hparse.
    apply (render_reference self context w frames [("x", "first")] "x" "second" []
             tokens "second" parser'); try done.
    intros [].
Qed.

(** What does hold of a block without attributes: it renders its body and
    builds no [LazyVariable]. *)
Lemma render_without_attributes self context w frames s :
  _variable_group_tokens self = [] ->
  nodelist self = [TextNode s] ->
  contexts w !! context = Some frames -> frames <> [] ->
  fst (render self context w) = Ok s /\
  lazies (snd (render self context w)) = lazies w.
Proof.
  intros Htokens Hbody Hctx Hne.
  destruct (enter_spec self context w frames Hctx) as (vars & Henter & _).
  rewrite (render_unfold _ _ _ _ Henter), Hbody, Htokens.
  unfold try_finally, render_nodelist, bind. cbn [render_each].
  unfold bind, TextNode, ret. cbn [map].
  rewrite (pop_below _ _ vars frames); [|by cbn [contexts]; rewrite lookup_insert_eq|done].
  unfold join, set_frames. cbn [String.concat fst snd lazies]. by rewrite app_nil_r.
Qed.

End Properties.

Lemma render_restores_frame_count_witness :
  depth 0 (snd (render (H := toy_host) toy_nested_block 0 (toy_world "A")))
  = depth 0 (toy_world "A").
Proof.
  destruct (render (H := toy_host) toy_nested_block 0 (toy_world "A"))
    as [outcome w'] eqn:Hrender.
  apply (render_restores_frame_count (H := toy_host) toy_nested_block 0
           (toy_world "A") 0)
    with (outcome := outcome).
  - repeat constructor. apply (render_keeps_live_depth (H := toy_host) toy_block).
    repeat constructor. apply TextNode_keeps_live_depth.
  - reflexivity.
  - exact Hrender.
Defined.

Lemma render_names_do_not_leak_witness :
  resolve_name 0 "v" (snd (render (H := toy_host) toy_block 0 (toy_world "A")))
  = resolve_name 0 "v" (toy_world "A").
Proof.
  apply (render_names_do_not_leak (H := toy_host) toy_block 0 (toy_world "A") [∅]).
  - repeat constructor. intros context w top rest Hctx. exists top. exact Hctx.
  - reflexivity.
  - discriminate.
Defined.


Lemma resolve_failure_assigns_nothing_witness :
  @lazies toy_types
    (snd (resolve (H := toy_host_with [@TextNode toy_types "A"; toy_raising_node])
            0 0 (toy_world "fragment"))) !! 0
  = Some (@Build_LazyVariable toy_types tt "fragment" 0 None).
Proof.
  apply (resolve_failure_assigns_nothing
           (H := toy_host_with [@TextNode toy_types "A"; toy_raising_node]) 0 0
           (toy_world "fragment")
           (snd (resolve (H := toy_host_with [@TextNode toy_types "A"; toy_raising_node])
                   0 0 (toy_world "fragment")))
           RuntimeError
           (@Build_LazyVariable toy_types tt "fragment" 0 None)).
  - reflexivity.
  - reflexivity.
  - reflexivity.
  - intros tokens nodes parser' _ [= <- _]. repeat split.
Defined.

(** Counterexample to C10 as it was written: when a node of the fragment
    has set the cell before a later node raises, the call raises and leaves
    the cell set, and the next call returns what the cell holds. *)
Lemma resolve_failure_can_leave_cache_set :
  exists w' : @World toy_types,
    resolve (H := toy_host_with [toy_writing_node; toy_raising_node])
      0 0 (toy_world "fragment") = (Raise RuntimeError, w') /\
    @lazies toy_types w' !! 0
    = Some (@Build_LazyVariable toy_types tt "fragment" 0 (Some "A")) /\
    resolve (H := toy_host_with [toy_writing_node; toy_raising_node]) 0 0 w'
    = (Ok (mark_safe "A"), w').
Proof. eexists. repeat split. Qed.

Lemma render_duplicate_name_last_wins_witness :
  fst (render (H := toy_host) toy_duplicate_block 0 (toy_world "A")) = Ok "second".
Proof.
  apply (proj2 (proj2 (render_duplicate_name_last_wins (H := toy_host)))
           toy_duplicate_block 0 (toy_world "A") [∅] ["second"] []).
  - reflexivity.
  - reflexivity.
  - reflexivity.
  - discriminate.
  - reflexivity.
  - reflexivity.
Defined.

(** * The tokenizer on well-formed attribute lists *)

Lemma star_greedy_complete cls w : forall b rest g k r,
  forallb cls w = true ->
  match rest with [] => true | c :: _ => negb (cls c) end = true ->
  k (Cursor (rev w ++ b) rest g) = Some r ->
  star_greedy cls b (w ++ rest) g k = Some r.
Proof.
  induction w as [|c w IH]; intros b rest g k r Hw Hrest Hk; simpl in *.
  - destruct rest as [|d rest]; simpl in *; [done|].
    apply negb_true_iff in Hrest. by rewrite Hrest.
  - apply andb_true_iff in Hw as [-> Hw].
    erewrite IH; [done|done|done|]. by rewrite <- app_assoc in Hk.
Qed.

Lemma star_lazy_complete cls q w : forall b rest g k r,
  Forall (fun c => cls c = true /\ c <> q) w ->
  k (Cursor (q :: rev w ++ b) rest g) = Some r ->
  star_lazy cls b (w ++ q :: rest) g (fun s1 => exec (Chr q) s1 k) = Some r.
Proof.
  induction w as [|c w IH]; intros b rest g k r Hw Hk.
  - cbn [app star_lazy exec ahead behind marks]. rewrite Ascii.eqb_refl.
    cbn [rev app] in Hk. by rewrite Hk.
  - apply Forall_cons in Hw as [[Hc Hne] Hw].
    cbn [app star_lazy exec ahead behind marks].
    destruct (Ascii.eqb q c) eqn:Hqc; [by apply Ascii.eqb_eq in Hqc|].
    rewrite Hc. apply IH; [done|].
    cbn [rev] in Hk. by rewrite <- app_assoc in Hk.
Qed.

Lemma captured_ahead s s' w : ahead s = w ++ ahead s' -> captured s s' = w.
Proof.
  intros H. unfold captured. rewrite H, length_app.
  replace (length w + length (ahead s') - length (ahead s')) with (length w) by lia.
  by rewrite firstn_app, Nat.sub_diag, firstn_all, app_nil_r.
Qed.

Lemma captured_cursor b b' g g' w a :
  captured (Cursor b (w ++ a) g) (Cursor b' a g') = w.
Proof. by apply captured_ahead. Qed.

Lemma exec_end s :
  token_end (ahead s) = true ->
  exec (Alt (Ahead (Chr space)) Dollar) s Some = Some s.
Proof.
  destruct s as [b [|c a] g]; cbn [token_end ahead]; [done|].
  intros Hc. apply Ascii.eqb_eq in Hc as ->. reflexivity.
Qed.

Lemma word_not_quote c : is_word c = true -> Ascii.eqb dquote c = false.
Proof.
  intros Hc. destruct (Ascii.eqb dquote c) eqn:Hq; [|done].
  apply Ascii.eqb_eq in Hq as <-. done.
Qed.

Lemma token_end_not_word tail :
  token_end tail = true ->
  match tail with [] => true | c :: _ => negb (is_word c) end = true.
Proof.
  destruct tail as [|c tail]; [done|]. cbn [token_end].
  intros Hc. by apply Ascii.eqb_eq in Hc as ->.
Qed.

Lemma exec_bare b name value tail :
  nonempty name = true -> forallb is_word name = true ->
  nonempty value = true -> forallb is_word value = true ->
  token_end tail = true ->
  exec TOKEN_REGEX (Cursor b (name ++ "="%char :: value ++ tail) (fun _ => None)) Some
  = Some (Cursor (rev value ++ "="%char :: rev name ++ b) tail
            (set_mark 3 value (set_mark 1 name (fun _ => None)))).
Proof.
  intros Hn Hname Hv Hvalue Htail.
  destruct name as [|c name]; [done|]. destruct value as [|d value]; [done|].
  cbn [forallb] in Hname, Hvalue.
  apply andb_true_iff in Hname as [Hc Hname].
  apply andb_true_iff in Hvalue as [Hd Hvalue].
  unfold TOKEN_REGEX.
  remember (Alt (Ahead (Chr space)) Dollar) as token_end_regex eqn:Hend.
  cbn [exec app ahead behind marks]. rewrite Hc.
  erewrite star_greedy_complete; [reflexivity|done|done|].
  cbn [exec app ahead behind marks]. rewrite Ascii.eqb_refl.
  cbn [exec app ahead behind marks]. rewrite (word_not_quote _ Hd), Hd.
  erewrite star_greedy_complete;
    [reflexivity|done|by apply token_end_not_word|].
  cbn [ahead behind marks]. subst token_end_regex. rewrite exec_end; [|done].
  f_equal. f_equal.
  - cbn [rev]. by rewrite <- !app_assoc.
  - f_equal; [by apply captured_ahead|]. f_equal. by apply captured_ahead.
Qed.

Lemma exec_lazy_until cls q w b rest g k r :
  Forall (fun c => cls c = true /\ c <> q) w ->
  k (Cursor (q :: rev w ++ b) rest g) = Some r ->
  exec (Seq (StarLazy cls) (Chr q)) (Cursor b (w ++ q :: rest) g) k = Some r.
Proof. intros Hw Hk. exact (star_lazy_complete cls q w b rest g k r Hw Hk). Qed.

Lemma plain_Forall value :
  forallb is_plain value = true ->
  Forall (fun c => is_dot c = true /\ c <> dquote) value.
Proof.
  intros Hv. apply Forall_forall. intros c Hc.
  eapply forallb_forall in Hv; [|apply list_elem_of_In, Hc].
  unfold is_plain in Hv. apply andb_true_iff in Hv as [Hdot Hq].
  split; [done|]. intros ->. by rewrite Ascii.eqb_refl in Hq.
Qed.

Lemma not_escaped value rest :
  match last value with
  | Some c => negb (Ascii.eqb c backslash)
  | None => true
  end = true ->
  is_prefix (rev [backslash; dquote]) (dquote :: rev value ++ dquote :: rest) = false.
Proof.
  destruct value as [|c value _] using rev_ind; [done|].
  rewrite last_snoc, rev_app_distr. intros Hc.
  apply negb_true_iff in Hc. rewrite Ascii.eqb_sym in Hc.
  cbn [rev app is_prefix]. by rewrite Hc, Ascii.eqb_refl.
Qed.

Lemma exec_quoted_alt b value tail g k r :
  forallb is_plain value = true ->
  match last value with
  | Some c => negb (Ascii.eqb c backslash)
  | None => true
  end = true ->
  k (Cursor (dquote :: rev value ++ dquote :: b) tail
       (set_mark 2 (dquote :: value ++ [dquote]) g)) = Some r ->
  exec (Seq (Group 2 (Seq (Chr dquote) (Seq (StarLazy is_dot) (Chr dquote))))
            (NotBehind [backslash; dquote]))
       (Cursor b (dquote :: value ++ dquote :: tail) g) k = Some r.
Proof.
  intros Hv Hlast Hk.
  remember (Seq (StarLazy is_dot) (Chr dquote)) as lazy_part eqn:Hlazy.
  cbn [exec ahead behind marks]. rewrite Ascii.eqb_refl. subst lazy_part.
  apply exec_lazy_until; [by apply plain_Forall|].
  cbn [ahead behind marks]. rewrite not_escaped; [|done].
  rewrite <- Hk. do 3 f_equal. apply captured_ahead. cbn [ahead app].
  by rewrite <- app_assoc.
Qed.

Lemma exec_quoted b name value tail :
  nonempty name = true -> forallb is_word name = true ->
  forallb is_plain value = true ->
  match last value with
  | Some c => negb (Ascii.eqb c backslash)
  | None => true
  end = true ->
  token_end tail = true ->
  exec TOKEN_REGEX
    (Cursor b (name ++ "="%char :: dquote :: value ++ dquote :: tail) (fun _ => None))
    Some
  = Some (Cursor (dquote :: rev value ++ dquote :: "="%char :: rev name ++ b) tail
            (set_mark 2 (dquote :: value ++ [dquote]) (set_mark 1 name (fun _ => None)))).
Proof.
  intros Hn Hname Hvalue Hlast Htail.
  destruct name as [|c name]; [done|].
  cbn [forallb] in Hname. apply andb_true_iff in Hname as [Hc Hname].
  unfold TOKEN_REGEX.
  remember (Alt (Ahead (Chr space)) Dollar) as token_end_regex eqn:Hend.
  remember (Seq (Group 2 _) _) as quoted_regex eqn:Hquoted.
  cbn [exec app ahead behind marks]. rewrite Hc.
  erewrite star_greedy_complete; [reflexivity|done|done|].
  cbn [exec app ahead behind marks]. rewrite Ascii.eqb_refl.
  subst quoted_regex. erewrite exec_quoted_alt; [reflexivity|done|done|].
  subst token_end_regex. rewrite exec_end; [|done].
  f_equal. f_equal.
  - cbn [rev]. by rewrite <- !app_assoc.
  - do 2 f_equal. by apply captured_ahead.
Qed.

Lemma well_formed_parts a :
  well_formed a = true ->
  nonempty (list_ascii_of_string (attr_name a)) = true /\
  forallb is_word (list_ascii_of_string (attr_name a)) = true /\
  if attr_quoted a
  then forallb is_plain (list_ascii_of_string (attr_value a)) = true /\
       match last (list_ascii_of_string (attr_value a)) with
       | Some c => negb (Ascii.eqb c backslash)
       | None => true
       end = true
  else nonempty (list_ascii_of_string (attr_value a)) = true /\
       forallb is_word (list_ascii_of_string (attr_value a)) = true.
Proof.
  unfold well_formed. intros H.
  apply andb_true_iff in H as [H Hv]. apply andb_true_iff in H as [Hn Hname].
  split; [done|]. split; [done|].
  destruct (attr_quoted a); by apply andb_true_iff in Hv.
Qed.

Lemma str_list (s : string) : str (list_ascii_of_string s) = s.
Proof. apply string_of_list_ascii_of_string. Qed.

(** At the start of a well-formed attribute that the end of the text or a
    space follows, the pattern matches that attribute and nothing more. *)
Lemma exec_attribute b a tail :
  well_formed a = true -> token_end tail = true ->
  exists s,
    exec TOKEN_REGEX (Cursor b (format_attribute a ++ tail) (fun _ => None)) Some = Some s /\
    ahead s = tail /\ groups_of 3 s = tuple_of a.
Proof.
  intros Hwf Htail.
  destruct (well_formed_parts a Hwf) as (Hn & Hname & Hvalue).
  unfold format_attribute, tuple_of. destruct (attr_quoted a).
  - destruct Hvalue as [Hplain Hlast]. eexists. split; [|split].
    + rewrite <- app_assoc. cbn [app]. rewrite <- app_assoc. cbn [app].
      by apply exec_quoted.
    + done.
    + unfold groups_of. cbn [seq map marks set_mark Nat.eqb default from_option id].
      by rewrite ?string_of_list_ascii_of_string.
  - destruct Hvalue as [Hv Hword]. eexists. split; [|split].
    + rewrite <- app_assoc. cbn [app]. by apply exec_bare.
    + done.
    + unfold groups_of. cbn [seq map marks set_mark Nat.eqb default from_option id].
      by rewrite ?string_of_list_ascii_of_string.
Qed.

Lemma scan_skip r n w : forall b rest,
  scan r n (length w) b (w ++ rest) = scan r n 0 (rev w ++ b) rest.
Proof.
  induction w as [|c w IH]; intros b rest; [done|].
  cbn [length app scan Nat.sub]. rewrite Nat.sub_0_r, IH. cbn [rev].
  by rewrite <- app_assoc.
Qed.

Lemma scan_match r n b m tail s :
  exec r (Cursor b (m ++ tail) (fun _ => None)) Some = Some s ->
  ahead s = tail -> m <> [] ->
  scan r n 0 b (m ++ tail) = groups_of n s :: scan r n 0 (rev m ++ b) tail.
Proof.
  intros Hexec Hahead Hm. destruct m as [|c m]; [done|].
  cbn [app scan]. cbn [app] in Hexec. rewrite Hexec, Hahead. f_equal.
  cbn [length]. rewrite length_app.
  replace (S (length m + length tail) - length tail - 1) with (length m) by lia.
  rewrite scan_skip. cbn [rev]. by rewrite <- app_assoc.
Qed.

Lemma format_attribute_nonempty a : format_attribute a <> [].
Proof. unfold format_attribute. by destruct (list_ascii_of_string (attr_name a)). Qed.

Lemma scan_attributes attrs : forall b,
  forallb well_formed attrs = true ->
  scan TOKEN_REGEX 3 0 b (format_attributes attrs) = map tuple_of attrs.
Proof.
  induction attrs as [|a attrs IH]; intros b Hwf; [done|].
  cbn [forallb] in Hwf. apply andb_true_iff in Hwf as [Ha Hwf].
  destruct attrs as [|a' attrs].
  - destruct (exec_attribute b a [] Ha eq_refl) as (s & Hexec & Hahead & Hgroups).
    cbn [format_attributes map]. rewrite <- (app_nil_r (format_attribute a)).
    rewrite (scan_match _ _ _ _ _ _ Hexec Hahead (format_attribute_nonempty a)).
    by rewrite Hgroups.
  - destruct (exec_attribute b a (space :: format_attributes (a' :: attrs)) Ha eq_refl)
      as (s & Hexec & Hahead & Hgroups).
    change (format_attributes (a :: a' :: attrs))
      with (format_attribute a ++ space :: format_attributes (a' :: attrs)).
    rewrite (scan_match _ _ _ _ _ _ Hexec Hahead (format_attribute_nonempty a)).
    rewrite Hgroups. cbn [map]. f_equal.
    change (scan TOKEN_REGEX 3 0 (rev (format_attribute a) ++ b)
              (space :: format_attributes (a' :: attrs)))
      with (scan TOKEN_REGEX 3 0 (space :: rev (format_attribute a) ++ b)
              (format_attributes (a' :: attrs))).
    by apply IH.
Qed.

Lemma lstrip_id f (l : text) :
  match l with [] => true | c :: _ => negb (f c) end = true -> lstrip f l = l.
Proof.
  destruct l as [|c l]; [done|]. cbn [lstrip]. intros Hc.
  apply negb_true_iff in Hc. by rewrite Hc.
Qed.

Lemma plain_not_stripped c :
  is_plain c = true -> negb (Ascii.eqb c dquote || false) = true.
Proof.
  unfold is_plain. intros Hc. apply andb_true_iff in Hc as [_ Hc].
  by rewrite orb_false_r.
Qed.

Lemma strip_quotes value :
  forallb is_plain value = true ->
  strip quote_chars (str (dquote :: value ++ [dquote])) = str value.
Proof.
  intros Hv. unfold strip, str. rewrite list_ascii_of_string_of_list_ascii.
  f_equal. cbn [lstrip list_ascii_of_string quote_chars existsb].
  rewrite Ascii.eqb_refl. cbn [orb].
  destruct value as [|c value]; [reflexivity|].
  assert (Hall : forall x, In x (c :: value) -> is_plain x = true)
    by (by apply forallb_forall).
  rewrite (lstrip_id _ ((c :: value) ++ [dquote]));
    [|by apply plain_not_stripped, Hall; left].
  unfold rstrip. rewrite rev_app_distr. cbn [rev app lstrip].
  rewrite Ascii.eqb_refl. cbn [orb].
  rewrite lstrip_id; [by rewrite <- (rev_involutive (c :: value))|].
  change (rev value ++ [c]) with (rev (c :: value)).
  destruct (rev (c :: value)) as [|x l] eqn:Hrev; [done|].
  apply plain_not_stripped, Hall, in_rev. rewrite Hrev. by left.
Qed.

Lemma token_of_tuple a :
  well_formed a = true -> token_of (tuple_of a) = (attr_name a, attr_value a).
Proof.
  intros Hwf. destruct (well_formed_parts a Hwf) as (_ & _ & Hvalue).
  unfold token_of, tuple_of. cbn [nth]. destruct (attr_quoted a); [|done].
  destruct Hvalue as [Hplain _]. cbn [str string_of_list_ascii truthy].
  change (String dquote (string_of_list_ascii (list_ascii_of_string (attr_value a) ++ [dquote])))
    with (str (dquote :: list_ascii_of_string (attr_value a) ++ [dquote])).
  by rewrite strip_quotes, str_list.
Qed.

(** X1: writing well-formed attributes one after the other, a space
    between them, and tokenizing the text gives the attributes back, in
    order and with their repetitions: names and bare words as written,
    quoted values without their quotes. *)
Theorem get_token_groups_round_trip (attrs : list attribute) :
  forallb well_formed attrs = true ->
  get_token_groups (str (format_attributes attrs))
  = Ok (map (fun a => (attr_name a, attr_value a)) attrs).
Proof.
  intros Hwf. rewrite get_token_groups_eq. f_equal.
  unfold findall, str. rewrite list_ascii_of_string_of_list_ascii.
  change (ngroups TOKEN_REGEX) with 3.
  rewrite (scan_attributes attrs [] Hwf), map_map.
  apply map_ext_in. intros a Ha. apply token_of_tuple.
  rewrite forallb_forall in Hwf. by apply Hwf.
Qed.

Lemma get_token_groups_round_trip_witness :
  get_token_groups
    ("greeting=" ++ quote_chars ++ "Hello {[ user.name ]}!" ++ quote_chars
     ++ " count=3 empty=" ++ quote_chars ++ quote_chars ++ " count=4")%string
  = Ok [("greeting", "Hello {[ user.name ]}!"); ("count", "3"); ("empty", "");
        ("count", "4")].
Proof.
  apply (get_token_groups_round_trip
           [ {| attr_name := "greeting"; attr_value := "Hello {[ user.name ]}!";
                attr_quoted := true |};
             {| attr_name := "count"; attr_value := "3"; attr_quoted := false |};
             {| attr_name := "empty"; attr_value := ""; attr_quoted := true |};
             {| attr_name := "count"; attr_value := "4"; attr_quoted := false |} ]).
  reflexivity.
Defined.

(** ** What [strip] leaves *)

Lemma lstrip_head f (s : text) c : head (lstrip f s) = Some c -> f c = false.
Proof.
  induction s as [|d s IH]; [done|]. cbn [lstrip].
  destruct (f d) eqn:Hd; [done|]. by intros [= <-].
Qed.

Lemma lstrip_suffix f (s : text) : exists d, s = d ++ lstrip f s.
Proof.
  induction s as [|c s [d IH]]; [by exists []|]. cbn [lstrip].
  destruct (f c); [|by exists []]. exists (c :: d). cbn [app]. by rewrite <- IH.
Qed.

Lemma rstrip_prefix f (s : text) : exists d, s = rstrip f s ++ d.
Proof.
  unfold rstrip. destruct (lstrip_suffix f (rev s)) as [d Hd].
  exists (rev d). by rewrite <- rev_app_distr, <- Hd, rev_involutive.
Qed.

Lemma last_rev_head (l : text) : last (rev l) = head l.
Proof. destruct l as [|c l]; [done|]. cbn [rev]. by rewrite last_snoc. Qed.

Lemma strip_clean chars s :
  let member c := existsb (Ascii.eqb c) (list_ascii_of_string chars) in
  let v := list_ascii_of_string (strip chars s) in
  (forall c, In c v -> In c (list_ascii_of_string s)) /\
  (forall c, head v = Some c -> member c = false) /\
  (forall c, last v = Some c -> member c = false).
Proof.
  intros member v. subst v. unfold strip. rewrite list_ascii_of_string_of_list_ascii.
  fold member. set (l := list_ascii_of_string s).
  destruct (lstrip_suffix member l) as [d1 Hd1].
  destruct (rstrip_prefix member (lstrip member l)) as [d2 Hd2].
  split; [|split].
  - intros c Hc. rewrite Hd1, Hd2. apply in_or_app. right. apply in_or_app. by left.
  - intros c Hc. apply (lstrip_head member l). rewrite Hd2.
    by destruct (rstrip member (lstrip member l)).
  - intros c. unfold rstrip. rewrite last_rev_head. apply lstrip_head.
Qed.

Lemma word_clean (word : text) :
  forallb is_word word = true -> clean_value (str word).
Proof.
  intros Hword. unfold clean_value, str. rewrite list_ascii_of_string_of_list_ascii.
  rewrite forallb_forall in Hword. split; [|split].
  - intros Hin. by apply Hword in Hin.
  - destruct word as [|c word]; [done|]. intros [= ->].
    by specialize (Hword dquote (or_introl eq_refl)).
  - intros Hlast. apply last_Some in Hlast as [l' ->].
    assert (Hq : In dquote (l' ++ [dquote])) by (apply in_or_app; right; by left).
    by apply Hword in Hq.
Qed.

Lemma token_tuple_value t : token_tuple t -> clean_value (snd (token_of t)).
Proof.
  intros [name body _ _ Hbody _|name word _ _ _ Hword]; cbn [token_of nth snd].
  - change (truthy (str (dquote :: body ++ [dquote]))) with true. cbn match.
    destruct (strip_clean quote_chars (str (dquote :: body ++ [dquote])))
      as (Hin & Hhead & Hlast).
    unfold str in Hin. rewrite list_ascii_of_string_of_list_ascii in Hin.
    split; [|split].
    + intros Hnl. apply Hin in Hnl as [Hnl|Hnl]; [done|].
      apply in_app_or in Hnl as [Hnl|[Hnl|[]]]; [|done].
      rewrite forallb_forall in Hbody. by apply Hbody in Hnl.
    + intros Hq. by apply Hhead in Hq.
    + intros Hq. by apply Hlast in Hq.
  - by apply word_clean.
Qed.

(** X2: whatever the input, a value the tokenizer returns holds no newline
    and neither begins nor ends with a double quote. *)
Theorem get_token_groups_values_are_clean (text : string) :
  exists groups,
    get_token_groups text = Ok groups /\
    Forall (fun group => clean_value (snd group)) groups.
Proof.
  exists (map token_of (findall TOKEN_REGEX text)).
  split; [apply get_token_groups_eq|].
  apply Forall_map. eapply Forall_impl; [apply findall_token_tuples|].
  intros t. apply token_tuple_value.
Qed.

Lemma strip_outer_quotes (body : text) :
  head body <> Some dquote -> last body <> Some dquote ->
  strip quote_chars (str (dquote :: body ++ [dquote])) = str body.
Proof.
  intros Hhead Hlast. unfold strip, str. rewrite list_ascii_of_string_of_list_ascii.
  f_equal. cbn [lstrip list_ascii_of_string quote_chars existsb].
  rewrite Ascii.eqb_refl. cbn [orb].
  assert (Hkeep : forall l : text, head l <> Some dquote ->
            match l with
            | [] => true
            | c :: _ => negb (Ascii.eqb c dquote || false)
            end = true).
  { intros [|c l] Hc; [done|]. rewrite orb_false_r.
    destruct (Ascii.eqb c dquote) eqn:Hq; [|done].
    by apply Ascii.eqb_eq in Hq as ->. }
  destruct body as [|c body]; [reflexivity|].
  rewrite (lstrip_id _ ((c :: body) ++ [dquote])); [|by apply (Hkeep (c :: body ++ [dquote]))].
  unfold rstrip. rewrite rev_app_distr. cbn [rev app lstrip].
  rewrite Ascii.eqb_refl. cbn [orb].
  rewrite lstrip_id; [by rewrite <- (rev_involutive (c :: body))|].
  change (rev body ++ [c]) with (rev (c :: body)).
  apply Hkeep. by rewrite <- last_rev_head, rev_involutive.
Qed.

Lemma token_tuple_exact t :
  token_tuple t ->
  fst (token_of t) = nth 0 t "" /\
  ((exists body,
       nth 1 t "" = str (dquote :: body ++ [dquote]) /\
       (head body <> Some dquote -> last body <> Some dquote ->
        snd (token_of t) = str body)) \/
   (nth 1 t "" = "" /\ snd (token_of t) = nth 2 t "")).
Proof.
  intros [name body _ _ _ _|name word _ _ _ _]; (split; [done|]).
  - left. exists body. split; [done|]. intros Hhead Hlast.
    cbn [token_of nth snd].
    change (truthy (str (dquote :: body ++ [dquote]))) with true. cbn match.
    by apply strip_outer_quotes.
  - right. done.
Qed.

(** X3: each pair comes from one match, its name being group 1; where the
    match took the quoted alternative and the text between the surrounding
    quotes neither begins nor ends with a quote, the value is that text
    exactly; where it took the bare alternative, the value is the word
    matched. *)
Theorem get_token_groups_values_are_exact (text : string) :
  exists groups,
    get_token_groups text = Ok groups /\
    Forall2 (fun match_ group =>
               fst group = nth 0 match_ "" /\
               ((exists body,
                    nth 1 match_ "" = str (dquote :: body ++ [dquote]) /\
                    (head body <> Some dquote -> last body <> Some dquote ->
                     snd group = str body)) \/
                (nth 1 match_ "" = "" /\ snd group = nth 2 match_ "")))
            (findall TOKEN_REGEX text) groups.
Proof.
  exists (map token_of (findall TOKEN_REGEX text)).
  split; [apply get_token_groups_eq|].
  pose proof (findall_token_tuples text) as Hall.
  induction Hall as [|t ts Ht _ IH]; constructor; [by apply token_tuple_exact|done].
Qed.

(** * [str] methods *)

Lemma list_ascii_of_string_app (a b : string) :
  list_ascii_of_string (a ++ b)%string
  = list_ascii_of_string a ++ list_ascii_of_string b.
Proof. induction a as [|c a IH]; [done|]. simpl. f_equal. exact IH. Qed.

Lemma index_text_missing (s : text) :
  ~ In space s -> index_text s [space] = Raise ValueError.
Proof.
  induction s as [|c s IH]; intros Hno; [done|].
  cbn [index_text is_prefix].
  destruct (Ascii.eqb space c) eqn:Hc.
  - apply Ascii.eqb_eq in Hc as <-. destruct Hno. by left.
  - cbn [andb]. rewrite IH; [done|]. intros ?. apply Hno. by right.
Qed.

Lemma index_text_first (tag rest : text) :
  ~ In space tag -> index_text (tag ++ space :: rest) [space] = Ok (length tag).
Proof.
  induction tag as [|c tag IH]; intros Hno.
  - cbn. destruct rest; reflexivity.
  - cbn [app index_text is_prefix].
    destruct (Ascii.eqb space c) eqn:Hc.
    + apply Ascii.eqb_eq in Hc as <-. destruct Hno. by left.
    + cbn [andb]. rewrite IH; [done|]. intros ?. apply Hno. by right.
Qed.

Lemma is_prefix_app (p s : text) :
  is_prefix p s = true -> s = p ++ skipn (length p) s.
Proof.
  revert s. induction p as [|c p IH]; intros s Hp; [done|].
  destruct s as [|d s]; [done|]. cbn [is_prefix] in Hp.
  apply andb_true_iff in Hp as [Hc Hp]. apply Ascii.eqb_eq in Hc as ->.
  cbn [length skipn app]. by rewrite <- IH.
Qed.

Lemma replace_text_absent old new (s : text) :
  occurs old s = false -> replace_text old new 0 s = s.
Proof.
  induction s as [|c s IH]; [done|]. cbn [occurs replace_text].
  intros Hno. apply orb_false_iff in Hno as [-> Hno]. by rewrite IH.
Qed.

Lemma replace_text_pointwise (R : ascii -> ascii -> Prop) old new :
  (forall c, R c c) -> Forall2 R new old -> old <> [] ->
  forall (s : text) skip, skip <= length s ->
    Forall2 R (replace_text old new skip s) (skipn skip s).
Proof.
  intros Hrefl Hnew Hold s.
  induction s as [|c s IH]; intros skip Hskip.
  - destruct skip; [constructor|cbn in Hskip; lia].
  - destruct skip as [|k]; cbn [replace_text skipn].
    + destruct (is_prefix old (c :: s)) eqn:Hp.
      * apply is_prefix_app in Hp. destruct old as [|o old]; [done|].
        cbn [length skipn app] in Hp. injection Hp as -> Hs.
        rewrite Hs at 2. cbn [length Nat.sub]. rewrite Nat.sub_0_r.
        change (o :: old ++ skipn (length old) s) with ((o :: old) ++ skipn (length old) s).
        apply Forall2_app; [done|]. apply IH.
        rewrite Hs, length_app. lia.
      * constructor; [done|]. apply (IH 0). lia.
    + apply IH. cbn [length] in Hskip. lia.
Qed.

Lemma string_length_list (s : string) :
  String.length s = length (list_ascii_of_string s).
Proof. induction s as [|c s IH]; [done|]. simpl. by rewrite IH. Qed.

Lemma Forall2_compose (R1 R2 R : ascii -> ascii -> Prop) (l2 l1 l0 : text) :
  (forall a b c, R2 a b -> R1 b c -> R a c) ->
  Forall2 R2 l2 l1 -> Forall2 R1 l1 l0 -> Forall2 R l2 l0.
Proof.
  intros Hcomp H2. revert l0.
  induction H2 as [|a b l2 l1 Hab _ IH]; intros l0 H1;
    inversion H1 as [|? c ? l0' Hbc Hrest]; subst; constructor; eauto.
Qed.

(** X4: rewriting the private brackets keeps the length of the fragment
    and every character of it except square brackets, which stay or become
    [%]. *)
Theorem replace_django_tags_only_changes_brackets (logic : string) :
  Forall2 (fun c' c => c' = c \/ ((c = "["%char \/ c = "]"%char) /\ c' = "%"%char))
          (list_ascii_of_string (_replace_django_tags logic))
          (list_ascii_of_string logic) /\
  String.length (_replace_django_tags logic) = String.length logic.
Proof.
  assert (Hpoint : Forall2 (fun c' c => c' = c \/ ((c = "["%char \/ c = "]"%char) /\ c' = "%"%char))
          (list_ascii_of_string (_replace_django_tags logic))
          (list_ascii_of_string logic)).
  { unfold _replace_django_tags, replace. rewrite !list_ascii_of_string_of_list_ascii.
    assert (Hnew1 : Forall2 (fun c' c => c' = c \/ (c = "["%char /\ c' = "%"%char))
                      (list_ascii_of_string "{%") (list_ascii_of_string "{["))
      by (constructor; [by left|constructor; [by right|constructor]]).
    assert (Hnew2 : Forall2 (fun c' c => c' = c \/ (c = "]"%char /\ c' = "%"%char))
                      (list_ascii_of_string "%}") (list_ascii_of_string "]}"))
      by (constructor; [by right|constructor; [by left|constructor]]).
    eapply (Forall2_compose
              (fun c' c => c' = c \/ (c = "["%char /\ c' = "%"%char))
              (fun c' c => c' = c \/ (c = "]"%char /\ c' = "%"%char))); [| |].
    - intros a b c [->|[-> ->]] [->|[-> ->]]; auto; done.
    - pose proof (replace_text_pointwise _ _ _ (fun c => or_introl eq_refl) Hnew2
                    ltac:(done)
                    (replace_text (list_ascii_of_string "{[") (list_ascii_of_string "{%") 0
                       (list_ascii_of_string logic)) 0 ltac:(lia)) as H2.
      rewrite skipn_O in H2. exact H2.
    - pose proof (replace_text_pointwise _ _ _ (fun c => or_introl eq_refl) Hnew1
                    ltac:(done) (list_ascii_of_string logic) 0 ltac:(lia)) as H1.
      rewrite skipn_O in H1. exact H1. }
  split; [done|].
  rewrite !string_length_list. by eapply Forall2_length.
Qed.

(** X5: a fragment in which neither private bracket occurs is compiled as
    it is written. *)
Theorem replace_django_tags_without_brackets (logic : string) :
  occurs (list_ascii_of_string "{[") (list_ascii_of_string logic) = false ->
  occurs (list_ascii_of_string "]}") (list_ascii_of_string logic) = false ->
  _replace_django_tags logic = logic.
Proof.
  intros Hopen Hclose. unfold _replace_django_tags, replace.
  rewrite list_ascii_of_string_of_list_ascii.
  rewrite (replace_text_absent _ _ _ Hopen), (replace_text_absent _ _ _ Hclose).
  apply string_of_list_ascii_of_string.
Qed.

Lemma replace_django_tags_without_brackets_witness :
  _replace_django_tags "Hello {{ user.name }}!" = "Hello {{ user.name }}!".
Proof.
  apply replace_django_tags_without_brackets; reflexivity.
Defined.

(** * More of [do_variable], [resolve] and [render] *)

Section MoreProperties.
Context {HT : HostTypes} {H : Host}.

(** X6: a tag text without a space makes [do_variable] raise [ValueError],
    whatever the parser holds; the parser is not called. *)
Theorem do_variable_without_space (parser : Parser) (token_text : string) :
  ~ In space (list_ascii_of_string token_text) ->
  do_variable parser token_text = Raise ValueError.
Proof.
  intros Hno. unfold do_variable, str_index.
  change (list_ascii_of_string " ") with [space].
  by rewrite index_text_missing.
Qed.

(** X7: for a tag text with a space, what precedes the first space (the tag
    name) plays no part and the rest is the attribute text; the attribute
    text never makes [do_variable] fail: it raises what [parser.parse] or
    [parser.delete_first_token] raise, and otherwise returns the node of
    the parsed body, the parser and the pairs of the attribute text. *)
Theorem do_variable_with_space (parser : Parser) (tag rest : string) :
  ~ In space (list_ascii_of_string tag) ->
  do_variable parser (tag ++ " " ++ rest)%string
  = rbind (parse parser ["endvariable"]) (fun parsed =>
    rbind (delete_first_token (snd parsed)) (fun parser' =>
    Ok ({| _nodelist := fst parsed;
           _parser := parser';
           _variable_group_tokens := map token_of (findall TOKEN_REGEX rest) |},
        parser'))).
Proof.
  intros Hno. unfold do_variable, str_index, slice_from.
  rewrite !list_ascii_of_string_app.
  change (list_ascii_of_string " ") with [space]. cbn [app].
  rewrite index_text_first; [|done]. cbn [rbind].
  replace (length (list_ascii_of_string tag) + 1)
    with (length (list_ascii_of_string tag ++ [space])) by (rewrite length_app; done).
  change (list_ascii_of_string tag ++ space :: list_ascii_of_string rest)
    with (list_ascii_of_string tag ++ [space] ++ list_ascii_of_string rest).
  rewrite app_assoc, skipn_app, skipn_all, Nat.sub_diag. cbn [app skipn].
  by rewrite skipn_O, string_of_list_ascii_of_string, get_token_groups_eq.
Qed.

Lemma resolve_compile_error self context w obj e :
  lazies w !! self = Some obj ->
  _cached_value obj = None ->
  tokenize TEMPLATE_DEBUG (_logic obj) = Raise e \/
  (exists tokens,
      tokenize TEMPLATE_DEBUG (_logic obj) = Ok tokens /\
      parse (set_tags (Parser_init TEMPLATE_DEBUG tokens) (_tag_library obj)) []
      = Raise e) ->
  resolve self context w = (Raise e, w).
Proof.
  intros Hobj Hcache Hfail. rewrite (resolve_uncached _ _ _ _ Hobj Hcache).
  unfold evaluate_and_cache, _resolve_value, bind, deref, lift. rewrite Hobj.
  destruct Hfail as [->|(tokens & -> & ->)]; done.
Qed.

Lemma str_compile_error self w obj e :
  lazies w !! self = Some obj ->
  _cached_value obj = None ->
  tokenize TEMPLATE_DEBUG (_logic obj) = Raise e \/
  (exists tokens,
      tokenize TEMPLATE_DEBUG (_logic obj) = Ok tokens /\
      parse (set_tags (Parser_init TEMPLATE_DEBUG tokens) (_tag_library obj)) []
      = Raise e) ->
  LazyVariable__str__ self w = (Raise e, w).
Proof.
  intros Hobj Hcache Hfail. unfold LazyVariable__str__, bind, deref. rewrite Hobj.
  by eapply resolve_compile_error.
Qed.

(** X8: when the lexer or the parser of the host rejects the fragment of a
    [LazyVariable] that is not resolved, [resolve] and the conversion to a
    string raise that exception, for every context, and leave the world as
    it was: nothing is cached, a later call raises again. *)
Theorem resolve_raises_what_the_compiler_raises self context w obj e :
  lazies w !! self = Some obj ->
  _cached_value obj = None ->
  tokenize TEMPLATE_DEBUG (_logic obj) = Raise e \/
  (exists tokens,
      tokenize TEMPLATE_DEBUG (_logic obj) = Ok tokens /\
      parse (set_tags (Parser_init TEMPLATE_DEBUG tokens) (_tag_library obj)) []
      = Raise e) ->
  resolve self context w = (Raise e, w) /\
  LazyVariable__str__ self w = (Raise e, w).
Proof.
  intros Hobj Hcache Hfail.
  split; [by eapply resolve_compile_error|by eapply str_compile_error].
Qed.



Lemma last_occurrence (name : string) (tokens : list (string * string)) :
  In name (map fst tokens) ->
  exists pre logic post,
    tokens = pre ++ (name, logic) :: post /\ ~ In name (map fst post).
Proof.
  induction tokens as [|[n l] tokens IH]; [done|]. intros Hin.
  destruct (in_dec string_dec name (map fst tokens)) as [Hrest|Hrest].
  - destruct (IH Hrest) as (pre & logic & post & -> & Hpost).
    by exists ((n, l) :: pre), logic, post.
  - destruct Hin as [Heq|Hin]; [|done]. cbn [fst] in Heq. subst n.
    by exists [], l, tokens.
Qed.

(** X10: a render builds one new [LazyVariable] per attribute, a repeated
    name included, after the objects that exist and without a change to
    them; what a name of the list resolves to when the body starts is one of
    the new objects: it is not resolved, whatever earlier renders have
    cached, and it holds the context of this render. *)
Theorem render_builds_fresh_lazy_variables self context w frames :
  contexts w !! context = Some frames ->
  exists w1,
    enter self context w = (Ok tt, w1) /\
    lazies w1
    = lazies w ++ map (new_lazy (get_tags (_parser self)) context)
                      (_variable_group_tokens self) /\
    forall name, In name (map fst (_variable_group_tokens self)) ->
      exists lazy obj,
        resolve_name context name w1 = Some (VLazy lazy) /\
        length (lazies w) <= lazy /\
        lazies w1 !! lazy = Some obj /\
        _cached_value obj = None /\ _context obj = context.
Proof.
  intros Hctx.
  destruct (enter_spec self context w frames Hctx) as (vars & Henter & _ & Hlast).
  eexists. split; [exact Henter|]. split; [done|].
  intros name Hname.
  destruct (last_occurrence _ _ Hname) as (pre & logic & post & Htokens & Hpost).
  specialize (Hlast _ _ _ _ Htokens Hpost).
  exists (length (lazies w) + length pre),
         (new_lazy (get_tags (_parser self)) context (name, logic)).
  split; [|split; [lia|split; [|done]]].
  - unfold resolve_name. cbn [contexts]. rewrite lookup_insert_eq.
    cbn [lookup_frames]. by rewrite Hlast.
  - cbn [lazies]. rewrite Htokens, map_app, app_assoc. cbn [map].
    apply list_lookup_middle. by rewrite length_app, length_map.
Qed.

(** X11: the frame a render pushes hides no other variable: when the body
    starts, a name that is not in the attribute list resolves as it did
    before the call. *)
Theorem render_hides_no_other_name self context w frames name :
  contexts w !! context = Some frames ->
  ~ In name (map fst (_variable_group_tokens self)) ->
  exists w1,
    enter self context w = (Ok tt, w1) /\
    resolve_name context name w1 = resolve_name context name w.
Proof.
  intros Hctx Hname.
  destruct (stage_variables_spec (get_tags (_parser self)) context
              (_variable_group_tokens self) ∅ w)
    as (vars & Hrun & Hout & _).
  destruct (enter_spec self context w frames Hctx) as (vars' & Henter & _).
  assert (vars' = vars) as ->.
  { unfold enter, bind in Henter. rewrite Hrun in Henter.
    unfold push, update_top, set_frames in Henter. cbn [contexts lazies] in Henter.
    rewrite Hctx in Henter. cbn [contexts lazies] in Henter.
    rewrite lookup_insert_eq in Henter. cbn [contexts] in Henter.
    injection Henter as Heq.
    apply (f_equal (fun m => m !! context)) in Heq.
    rewrite !lookup_insert_eq in Heq. injection Heq as Heq.
    by rewrite (right_id_L ∅ (∪)) in Heq. }
  eexists. split; [exact Henter|].
  unfold resolve_name. cbn [contexts]. rewrite lookup_insert_eq, Hctx.
  cbn [lookup_frames]. by rewrite (Hout _ Hname), lookup_empty.
Qed.

(** X12: blocks nest: the render of a block whose body nodes leave the
    frames below the top frame as they found them is again such a node, and
    it leaves the top frame as it found it too. *)
Theorem render_keeps_below self :
  Forall keeps_below (nodelist self) ->
  keeps_below (render self) /\
  forall context w top rest,
    contexts w !! context = Some (top :: rest) ->
    contexts (snd (render self context w)) !! context = Some (top :: rest).
Proof.
  intros Hbody.
  assert (Hsame : forall context w top rest,
             contexts w !! context = Some (top :: rest) ->
             contexts (snd (render self context w)) !! context = Some (top :: rest)).
  { intros context w top rest Hctx. by apply render_frames. }
  split; [|done].
  intros context w top rest Hctx. exists top. by apply Hsame.
Qed.

(** X13: an attribute the body does not refer to is never compiled: over
    a body of static text a block renders that text whatever the fragments
    of its attributes are, and leaves the new [LazyVariable] objects as it
    built them, not resolved. *)
Theorem render_static_body_is_lazy self context w frames s :
  nodelist self = [TextNode s] ->
  contexts w !! context = Some frames -> frames <> [] ->
  fst (render self context w) = Ok s /\
  lazies (snd (render self context w))
  = lazies w ++ map (new_lazy (get_tags (_parser self)) context)
                    (_variable_group_tokens self).
Proof.
  intros Hbody Hctx Hne.
  destruct (enter_spec self context w frames Hctx) as (vars & Henter & _).
  rewrite (render_unfold _ _ _ _ Henter), Hbody.
  unfold try_finally, render_nodelist, bind. cbn [render_each].
  unfold bind, TextNode, ret.
  rewrite (pop_below _ _ vars frames); [|by cbn [contexts]; rewrite lookup_insert_eq|done].
  unfold join, set_frames. cbn [String.concat fst snd lazies]. done.
Qed.

(** X14: a reference in the body to an attribute whose fragment the lexer
    of the host rejects makes the render raise that exception; the frames of
    the context are then those it had before the call. *)
Theorem render_raises_what_a_fragment_raises
    self context w frames pre name logic post e :
  _variable_group_tokens self = pre ++ (name, logic) :: post ->
  ~ In name (map fst post) ->
  nodelist self = [VariableNode name] ->
  contexts w !! context = Some frames -> frames <> [] ->
  tokenize TEMPLATE_DEBUG (_replace_django_tags logic) = Raise e ->
  fst (render self context w) = Raise e /\
  contexts (snd (render self context w)) !! context = Some frames.
Proof.
  intros Htokens Hpost Hbody Hctx Hne Hlex.
  destruct (enter_spec self context w frames Hctx) as (vars & Henter & _ & Hlast).
  specialize (Hlast _ _ _ _ Htokens Hpost).
  rewrite (render_unfold _ _ _ _ Henter), Hbody.
  set (tags := get_tags (_parser self)) in *.
  set (lazy := length (lazies w) + length pre) in *.
  set (w1 := {| contexts := _; lazies := _ |}) in *.
  assert (Hobj : lazies w1 !! lazy = Some (new_lazy tags context (name, logic))).
  { subst w1 lazy. cbn [lazies]. rewrite Htokens, map_app, app_assoc. cbn [map].
    apply list_lookup_middle. by rewrite length_app, length_map. }
  assert (Hframes : contexts w1 !! context = Some (vars :: frames)).
  { subst w1. cbn [contexts]. by rewrite lookup_insert_eq. }
  clearbody w1 lazy tags.
  pose proof (str_compile_error lazy w1 _ e Hobj eq_refl (or_introl Hlex)) as Hstr.
  assert (Hnode : VariableNode name context w1 = (Raise e, w1)).
  { unfold VariableNode, resolve_name. rewrite Hframes. cbn [lookup_frames].
    rewrite Hlast. unfold bind. by rewrite Hstr. }
  unfold try_finally, render_nodelist, bind. cbn [render_each].
  unfold bind. rewrite Hnode.
  rewrite (pop_below _ _ vars frames); [|done|done].
  split; [done|]. unfold set_frames. cbn [snd contexts]. by rewrite lookup_insert_eq.
Qed.

End MoreProperties.

Lemma do_variable_without_space_witness :
  do_variable (H := toy_host) [] "variablex=1" = Raise ValueError.
Proof.
  apply (do_variable_without_space (H := toy_host)).
  intros Hin. repeat (destruct Hin as [Hin|Hin]; [discriminate Hin|]). exact Hin.
Defined.

Lemma do_variable_with_space_witness :
  do_variable (H := toy_host) [] ("variable" ++ " " ++ "x=1 y=B")%string
  = Ok (@Build_TemplateVariableNode toy_types [] [] [("x", "1"); ("y", "B")], []).
Proof.
  etransitivity.
  - apply (do_variable_with_space (H := toy_host) [] "variable" "x=1 y=B").
    intros Hin. repeat (destruct Hin as [Hin|Hin]; [discriminate Hin|]). exact Hin.
  - reflexivity.
Defined.

Lemma resolve_raises_what_the_compiler_raises_witness :
  resolve (H := toy_host) 0 3 (toy_world "{% bad %}")
  = (Raise (TemplateSyntaxError "Invalid block tag: 'bad'"), toy_world "{% bad %}").
Proof.
  apply (resolve_raises_what_the_compiler_raises (H := toy_host) 0 3
           (toy_world "{% bad %}")
           (@Build_LazyVariable toy_types tt "{% bad %}" 0 None)).
  - reflexivity.
  - reflexivity.
  - left. reflexivity.
Defined.


Lemma render_builds_fresh_lazy_variables_witness :
  exists w1,
    enter (H := toy_host) toy_block 0 (toy_world "A") = (Ok tt, w1) /\
    length (lazies w1) = 2.
Proof.
  destruct (render_builds_fresh_lazy_variables (H := toy_host) toy_block 0
              (toy_world "A") [∅] eq_refl) as (w1 & Henter & Hlazies & _).
  exists w1. split; [exact Henter|]. by rewrite Hlazies.
Defined.

Lemma render_hides_no_other_name_witness :
  exists w1,
    enter (H := toy_host) toy_block 0 (toy_world "A") = (Ok tt, w1) /\
    resolve_name 0 "user" w1 = resolve_name 0 "user" (toy_world "A").
Proof.
  apply (render_hides_no_other_name (H := toy_host) toy_block 0 (toy_world "A") [∅]).
  - reflexivity.
  - intros [Hin|[]]. discriminate Hin.
Defined.

Lemma render_keeps_below_witness :
  @contexts toy_types (snd (render (H := toy_host) toy_nested_block 0 (toy_world "A"))) !! 0
  = Some [∅].
Proof.
  apply (proj2 (render_keeps_below (H := toy_host) toy_nested_block
                  ltac:(repeat constructor;
                        apply (render_keeps_below (H := toy_host) toy_block);
                        repeat constructor;
                        intros context w top rest Hctx; exists top; exact Hctx))).
  reflexivity.
Defined.

Lemma render_static_body_is_lazy_witness :
  fst (render (H := toy_host) toy_bad_static_block 0 (toy_world "A")) = Ok "static text".
Proof.
  apply (render_static_body_is_lazy (H := toy_host) toy_bad_static_block 0
           (toy_world "A") [∅] "static text").
  - reflexivity.
  - reflexivity.
  - discriminate.
Defined.

Lemma render_raises_what_a_fragment_raises_witness :
  fst (render (H := toy_host) toy_bad_reference_block 0 (toy_world "A"))
  = Raise (TemplateSyntaxError "Invalid block tag: 'bad'").
Proof.
  apply (render_raises_what_a_fragment_raises (H := toy_host) toy_bad_reference_block 0
           (toy_world "A") [∅] [] "x" "{[ bad ]}" []).
  - reflexivity.
  - intros [].
  - reflexivity.
  - reflexivity.
  - discriminate.
  - reflexivity.
Defined.
